(** * MOSTMetalCura: the polygon kernel of [src/utils/polygon.h]

    A shallow embedding of [cura::PolygonRef] and [cura::Polygons] together
    with the properties of the loops and shapes they compute.

    Conventions of the embedding.
    - A [ClipperLib::Path] is a [list Point], a [ClipperLib::Paths] a list of
      paths.  [size()] is the length of the list; the [unsigned int] it is
      returned in is taken to hold it (fewer than 2^32 elements).
    - [int64_t] and [int] values are integers of [Z]; every arithmetic
      operation of the source is followed by its two's complement
      wrap-around ([wrap64], [wrap32]).
    - An indexed access [v[i]] is a list lookup; an access out of range has
      no value and makes the whole call fail ([None]).
    - A [double] is a binary64 float of the kernel ([PrimFloat]). *)

From Stdlib Require Import ZArith Floats Uint63.
From stdpp Require Import list numbers.

Open Scope Z_scope.

(** ** Machine integers *)

Definition wrap (w : Z) (z : Z) : Z := (z + 2 ^ (w - 1)) mod 2 ^ w - 2 ^ (w - 1).
Definition wrap64 : Z → Z := wrap 64.
Definition wrap32 : Z → Z := wrap 32.

Definition add64 (a b : Z) : Z := wrap64 (a + b).
Definition sub64 (a b : Z) : Z := wrap64 (a - b).
Definition mul64 (a b : Z) : Z := wrap64 (a * b).
Definition mul32 (a b : Z) : Z := wrap32 (a * b).

Definition fits (w : Z) (z : Z) : Prop := - 2 ^ (w - 1) ≤ z < 2 ^ (w - 1).

(** ** Points: [ClipperLib::IntPoint], two [int64_t] coordinates *)

Record Point : Type := mkPoint { X : Z; Y : Z }.

#[global] Instance Point_eq_dec : EqDecision Point.
Proof. solve_decision. Defined.

Abbreviation Path := (list Point).
Abbreviation Paths := (list (list Point)).

(** The helpers of [intpoint.h], which the kernel includes. *)
Module IntPoint.

(** Modelled from the spec: the point primitive of [intpoint.h] is not part
    of the sources; the spec lists its operations as "vector add/subtract/
    scale, dot product, squared length, Euclidean length".  [psub] is the
    subtraction of two points, coordinate by coordinate. *)
Definition psub (a b : Point) : Point :=
  mkPoint (sub64 (X a) (X b)) (sub64 (Y a) (Y b)).

(** Modelled from the spec: [vSize2], the squared length of a vector, an
    [int64_t]. *)
Definition vSize2 (p : Point) : Z :=
  add64 (mul64 (X p) (X p)) (mul64 (Y p) (Y p)).

(** Modelled from the spec: [dot], the dot product of two vectors. *)
Definition dot (a b : Point) : Z :=
  add64 (mul64 (X a) (X b)) (mul64 (Y a) (Y b)).

(** Modelled from the spec: [vSize], the Euclidean length of a vector as an
    integer (the root of the squared length, rounded down). *)
Definition vSize (p : Point) : Z := Z.sqrt (X p * X p + Y p * Y p).

(** Modelled from the spec: [shorterThen p len], "the chord is shorter than
    [removeLength]", decided on the squared lengths. *)
Definition shorterThen (p : Point) (len : Z) : bool :=
  (0 <? len) && (X p * X p + Y p * Y p <? len * len).

(** Modelled from the spec: [operator+=] on points, "vector add",
    coordinate by coordinate. *)
Definition padd (a b : Point) : Point :=
  mkPoint (add64 (X a) (X b)) (add64 (Y a) (Y b)).

(** The conversion of an [int64_t] to [double] (rounding to nearest). *)
Definition Z2double (z : Z) : float :=
  if z <? 0 then PrimFloat.opp (PrimFloat.of_uint63 (Uint63.of_Z (- z)))
  else PrimFloat.of_uint63 (Uint63.of_Z z).

(** The conversion [static_cast<int64_t>] of a [double]: the fraction is
    discarded; a value that is not finite or not in range has no
    conversion. *)
Definition double2int64 (f : float) : option Z :=
  match Prim2SF f with
  | S754_zero _ => Some 0
  | S754_finite s m e =>
    let v := if 0 <=? e then Z.pos m * 2 ^ e else Z.pos m / 2 ^ (- e) in
    let v := if s then - v else v in
    if (- 2 ^ 63 <=? v) && (v <? 2 ^ 63) then Some v else None
  | _ => None
  end.

(** Modelled from the spec: the macro [INT2MM] of [intpoint.h], "converted
    from internal units to mm"; the internal unit is the micron (the comment
    of [removeSmallAreas]: "in mm^2, not in micron^2"). *)
Definition INT2MM (n : float) : float := PrimFloat.div n (Z2double 1000).

(** Modelled from the spec: [vSizeMM], the Euclidean length of a vector in
    millimetres, a [double]. *)
Definition vSizeMM (p : Point) : float :=
  let fx := INT2MM (Z2double (X p)) in
  let fy := INT2MM (Z2double (Y p)) in
  PrimFloat.sqrt (PrimFloat.add (PrimFloat.mul fx fx) (PrimFloat.mul fy fy)).



End IntPoint.

(** ** Loops: [cura::PolygonRef] *)
Module PolygonRef.

Definition size (thiss : Path) : Z := Z.of_nat (length thiss).

(** [polygon->back()]: the last point, if there is one. *)
Definition back (thiss : Path) : option Point := list.last thiss.

(** The body of the loop of [inside], over the points [thiss[n]],
    [thiss[n+1]], ... that are still to be visited.  [p0] is the point
    before [p1]; [crossings] is an [int].  A [return] inside the loop ends
    the recursion. *)
Fixpoint inside_loop (rest : Path) (p0 p : Point) (border_result : bool)
    (crossings : Z) : bool :=
  match rest with
  | [] => Z.rem crossings 2 =? 1
  | p1 :: rest' =>
    if Z.max (X p0) (X p1) >=? X p then
      let pdY := sub64 (Y p1) (Y p0) in
      if pdY <? 0 then
        if (Y p1 <=? Y p) && (Y p0 >? Y p) then
          let dx := sub64 (mul64 (sub64 (X p1) (X p0)) (sub64 (Y p1) (Y p)))
                          (mul64 (sub64 (X p1) (X p)) pdY) in
          if dx =? 0 then border_result
          else inside_loop rest' p1 p border_result
                 (if dx >? 0 then wrap32 (crossings + 1) else crossings)
        else inside_loop rest' p1 p border_result crossings
      else if Y p >=? Y p0 then
        if Y p <? Y p1 then
          let dx := sub64 (mul64 (sub64 (X p1) (X p0)) (sub64 (Y p) (Y p0)))
                          (mul64 (sub64 (X p) (X p0)) pdY) in
          if dx =? 0 then border_result
          else inside_loop rest' p1 p border_result
                 (if dx >? 0 then wrap32 (crossings + 1) else crossings)
        else if Y p =? Y p1 then
          if (X p =? X p1) || ((pdY =? 0) && (Z.min (X p0) (X p1) <=? X p))
          then border_result
          else inside_loop rest' p1 p border_result crossings
        else inside_loop rest' p1 p border_result crossings
      else inside_loop rest' p1 p border_result crossings
    else inside_loop rest' p1 p border_result crossings
  end.

(** [bool inside(Point p, bool border_result)]. *)
Definition inside (thiss : Path) (p : Point) (border_result : bool) : bool :=
  if size thiss <? 1 then false
  else match back thiss with
       | Some p0 => inside_loop thiss p0 p border_result 0
       | None => false
       end.

(** *** [polygonLength] and [smooth]

    Both use helpers of [intpoint.h] whose text is not in the sources:
    [vSize] (the length of a vector, as an integer) and [shorterThen]
    (whether a vector is shorter than a length).  The definitions take
    them as parameters. *)
Section Helpers.

Variable vSize : Point → Z.
Variable shorterThen : Point → Z → bool.

(** The loop of [polygonLength], over the points still to be visited;
    [length] is an [int64_t]. *)
Fixpoint polygonLength_loop (rest : Path) (p0 : Point) (length : Z) : Z :=
  match rest with
  | [] => length
  | p1 :: rest' =>
    polygonLength_loop rest' p1 (add64 length (vSize (IntPoint.psub p0 p1)))
  end.

(** [int64_t polygonLength() const].  The first statement reads
    the point of the path at index [polygon->size()-1], computed in [size_t]
    (modulo 2^64), before the loop is entered. *)
Definition polygonLength (thiss : Path) : option Z :=
  p0 ← thiss !! Z.to_nat ((size thiss - 1) mod 2 ^ 64);
  Some (polygonLength_loop thiss p0 0).

(** The loop of [smooth]: one iteration for the index [poly_idx], then
    the loop again from the index the iteration leaves plus one.
    [poly] is the path behind [result]; [fuel] bounds the number of
    iterations. *)
Fixpoint smooth_loop (fuel : nat) (thiss : Path) (remove_length : Z)
    (poly_idx : nat) (poly : Path) : option Path :=
  if decide (poly_idx < length thiss)%nat then
    match fuel with
    | O => None
    | S fuel' =>
      prev ← thiss !! (poly_idx - 1)%nat;
      cur ← thiss !! poly_idx;
      if shorterThen (IntPoint.psub prev cur) remove_length then
        let poly_idx' := S poly_idx in
        if decide (poly_idx' < length thiss)%nat then
          nxt ← thiss !! poly_idx';
          smooth_loop fuel' thiss remove_length (S poly_idx') (poly ++ [nxt])
        else smooth_loop fuel' thiss remove_length (S poly_idx') poly
      else smooth_loop fuel' thiss remove_length (S poly_idx) (poly ++ [cur])
    end
  else Some poly.

(** [void smooth(int remove_length, PolygonRef result)]: the points are
    appended to the path of [result]; the value is that path after the
    call. *)
Definition smooth (thiss : Path) (remove_length : Z) (poly : Path) : option Path :=
  poly0 ← (if decide (0 < length thiss)%nat
           then p ← thiss !! 0%nat; Some (poly ++ [p])
           else Some poly);
  smooth_loop (length thiss) thiss remove_length 1 poly0.

End Helpers.

(** *** [simplify]

    [vSizeMM], the length of a vector in millimetres as a [double], is a
    helper of [intpoint.h] and a parameter.  [last] is a reference to
    [thiss[0]]: reading [last] reads the first point of the loop, and the
    assignment [last = thiss[poly_idx]] writes it, so the loop [thiss] is
    part of the state.  [next] is a reference as well, to [thiss[0]] at the
    last index. *)
Section Simplify.

Variable vSizeMM : Point → float.

(** The divisor of [a2]:
    [static_cast<int64_t>(square(vSizeMM(next-last) + vSizeMM(cur-last))*1000*1000)]. *)
Definition simplify_divisor (next cur last : Point) : option Z :=
  let sum := PrimFloat.add (vSizeMM (IntPoint.psub next last))
                           (vSizeMM (IntPoint.psub cur last)) in
  IntPoint.double2int64
    (PrimFloat.mul (PrimFloat.mul (PrimFloat.mul sum sum) (IntPoint.Z2double 1000))
                   (IntPoint.Z2double 1000)).

(** The loop of [simplify]: [n] iterations remain from [poly_idx] on.  The
    state is the loop [thiss] and the path [poly] behind [result].  A
    division by zero has no value. *)
Fixpoint simplify_loop (n : nat) (thiss : Path) (allowed_error_distance_squared : Z)
    (poly_idx : nat) (poly : Path) : option (Path * Path) :=
  match n with
  | O => Some (thiss, poly)
  | S n' =>
    cur ← thiss !! poly_idx;
    last ← thiss !! 0%nat;
    if IntPoint.vSize2 (IntPoint.psub cur last) <? allowed_error_distance_squared
    then simplify_loop n' thiss allowed_error_distance_squared (S poly_idx) poly
    else
      next ← thiss !! (S poly_idx mod length thiss)%nat;
      divisor ← simplify_divisor next cur last;
      if divisor =? 0 then None
      else
        let a2 := Z.quot (mul64 (IntPoint.vSize2 (IntPoint.psub next cur))
                                (IntPoint.vSize2 (IntPoint.psub next last)))
                         divisor in
        let error2 := sub64 (IntPoint.vSize2 (IntPoint.psub next cur)) a2 in
        if error2 <? allowed_error_distance_squared
        then simplify_loop n' thiss allowed_error_distance_squared (S poly_idx) poly
        else simplify_loop n' (<[0%nat := cur]> thiss) allowed_error_distance_squared
               (S poly_idx) (poly ++ [cur])
  end.

(** [void simplify(int allowed_error_distance_squared, PolygonRef result)]:
    the pair of the loop [thiss] and of the path of [result] after the
    call. *)
Definition simplify (thiss : Path) (allowed_error_distance_squared : Z) (poly : Path) :
    option (Path * Path) :=
  if size thiss <? 4 then Some (thiss, poly ++ thiss)
  else
    last ← thiss !! 0%nat;
    st ← simplify_loop (length thiss - 1) thiss allowed_error_distance_squared 1
           (poly ++ [last]);
    if (length st.2 <? 3)%nat then Some (st.1, st.1) else Some st.

End Simplify.

(** *** [min], [max] and [translate]

    [POINT_MIN] and [POINT_MAX] are constants of [intpoint.h] and
    parameters here. *)
Section Bounds.

Variable POINT_MIN POINT_MAX : Z.

(** The loop of [min], over the points still to be visited. *)
Fixpoint min_loop (rest : Path) (ret : Point) : Point :=
  match rest with
  | [] => ret
  | p :: rest' => min_loop rest' (mkPoint (Z.min (X ret) (X p)) (Z.min (Y ret) (Y p)))
  end.

(** [Point min() const]. *)
Definition min (thiss : Path) : Point :=
  min_loop thiss (mkPoint POINT_MAX POINT_MAX).

(** The loop of [max]. *)
Fixpoint max_loop (rest : Path) (ret : Point) : Point :=
  match rest with
  | [] => ret
  | p :: rest' => max_loop rest' (mkPoint (Z.max (X ret) (X p)) (Z.max (Y ret) (Y p)))
  end.

(** [Point max() const]. *)
Definition max (thiss : Path) : Point :=
  max_loop thiss (mkPoint POINT_MIN POINT_MIN).

End Bounds.

(** [void translate(Point translation)]: the loop after the call. *)
Definition translate (thiss : Path) (translation : Point) : Path :=
  map (λ p, IntPoint.padd p translation) thiss.

End PolygonRef.

(** ** The contour tree of the clipping engine: [ClipperLib::PolyNode] *)

#[local] Set Warnings "-register-all".
Inductive PolyNode : Type :=
  mkPolyNode (contour : Path) (childs : list PolyNode).

Definition Contour (node : PolyNode) : Path :=
  match node with mkPolyNode contour _ => contour end.
Definition Childs (node : PolyNode) : list PolyNode :=
  match node with mkPolyNode _ childs => childs end.

(** ** Shapes: [cura::Polygons] *)
Module Polygons.

Definition size (polygons : Paths) : Z := Z.of_nat (length polygons).

(** [void _processPolyTreeNode(PolyNode* node, std::vector<Polygons>& ret)]:
    the two nested loops over [node->Childs] and [child->Childs]; [ret] is
    threaded through them and through the recursive calls. *)
Fixpoint _processPolyTreeNode (node : PolyNode) (ret : list Paths) : list Paths :=
  fold_left
    (λ (ret : list Paths) (child : PolyNode),
       let '(polygons, ret) :=
         fold_left
           (λ (st : Paths * list Paths) (grandchild : PolyNode),
              (st.1 ++ [Contour grandchild], _processPolyTreeNode grandchild st.2))
           (Childs child) ([Contour child], ret) in
       ret ++ [polygons])
    (Childs node) ret.

(** *** [removeSmallAreas]

    [area] is [PolygonRef::area], answered by the clipping engine, and
    [INT2MM] the macro of [intpoint.h]; both are parameters. *)
Section Areas.

Variable area : Path → float.
Variable INT2MM : float → float.




End Areas.

(** *** [remove]

    The distances [dist2] and [smallestDist2] are [int]: the [int64_t] of
    [vSize2] is converted to 32 bits, and [same_distance * same_distance] is
    an [int] product. *)

(** The search for the closest point of [poly_rem] to [poly_keep[0]]: the
    loop over [point_rem_idx], on the points still to be visited. *)
Fixpoint remove_closest_loop (rest : Path) (keep0 : Point) (point_rem_idx : nat)
    (closest_point_idx : nat) (smallestDist2 : Z) : nat * Z :=
  match rest with
  | [] => (closest_point_idx, smallestDist2)
  | p :: rest' =>
    let dist2 := wrap32 (IntPoint.vSize2 (IntPoint.psub p keep0)) in
    if (dist2 <? smallestDist2) || (smallestDist2 <? 0)
    then remove_closest_loop rest' keep0 (S point_rem_idx) point_rem_idx dist2
    else remove_closest_loop rest' keep0 (S point_rem_idx) closest_point_idx smallestDist2
  end.

(** The comparison of the two loops on all points: [n] iterations remain
    from [point_idx] on; the value is [poly_rem_is_poly_keep]. *)
Fixpoint remove_compare_loop (n : nat) (poly_rem poly_keep : Path)
    (closest_point_idx : nat) (same_distance : Z) (point_idx : nat) : option bool :=
  match n with
  | O => Some true
  | S n' =>
    pr ← poly_rem !! ((closest_point_idx + point_idx) mod length poly_rem)%nat;
    pk ← poly_keep !! point_idx;
    let dist2 := wrap32 (IntPoint.vSize2 (IntPoint.psub pr pk)) in
    if dist2 >? mul32 same_distance same_distance then Some false
    else remove_compare_loop n' poly_rem poly_keep closest_point_idx same_distance
           (S point_idx)
  end.

(** One iteration of the loop over [to_be_removed]: whether [poly_rem] makes
    [should_be_removed] true ([continue] is [false]). *)
Definition remove_match (poly_keep poly_rem : Path) (same_distance : Z) : option bool :=
  if negb (length poly_rem =? length poly_keep)%nat || (length poly_rem =? 0)%nat
  then Some false
  else
    keep0 ← poly_keep !! 0%nat;
    let '(closest_point_idx, smallestDist2) :=
      remove_closest_loop poly_rem keep0 0 0 (-1) in
    if smallestDist2 >? mul32 same_distance same_distance then Some false
    else remove_compare_loop (length poly_rem) poly_rem poly_keep closest_point_idx
           same_distance 0.

(** The loop over [to_be_removed], left at the first match. *)
Fixpoint remove_should_be_removed (poly_keep : Path) (rest : Paths)
    (same_distance : Z) : option bool :=
  match rest with
  | [] => Some false
  | poly_rem :: rest' =>
    poly_rem_is_poly_keep ← remove_match poly_keep poly_rem same_distance;
    if poly_rem_is_poly_keep : bool then Some true
    else remove_should_be_removed poly_keep rest' same_distance
  end.

(** The loop over [poly_keep_idx]; [result] is the local shape that is
    returned. *)
Fixpoint remove_loop (rest : Paths) (to_be_removed : Paths) (same_distance : Z)
    (result : Paths) : option Paths :=
  match rest with
  | [] => Some result
  | poly_keep :: rest' =>
    should_be_removed ←
      (if 0 <? PolygonRef.size poly_keep
       then remove_should_be_removed poly_keep to_be_removed same_distance
       else Some false);
    remove_loop rest' to_be_removed same_distance
      (if negb should_be_removed : bool then result ++ [poly_keep] else result)
  end.

(** [Polygons remove(Polygons& to_be_removed, int same_distance)]: the pair
    of the shape [*this] after the call and of the shape returned.  No
    statement of the function writes to [polygons]. *)
Definition remove (polygons : Paths) (to_be_removed : Paths) (same_distance : Z) :
    option (Paths * Paths) :=
  result ← remove_loop polygons to_be_removed same_distance [];
  Some (polygons, result).

(** *** [removeDegenerateVerts]

    [vSize], the length of a vector as an integer, is a helper of
    [intpoint.h] and a parameter here, and so is the integer type it
    returns: [vSize_wrap] is the wrap-around of that type ([wrap32] for an
    [int], [wrap64] for an [int64_t]), applied to each of the two products of
    [-1 * vSize(last_line) * vSize(next_line)].  The [int64_t] of [dot] is
    compared with the product converted to [int64_t], which keeps its
    value. *)
Section DegenerateVerts.

Variable vSize_wrap : Z → Z.
Variable vSize : Point → Z.

(** The lambda [isDegenerate]. *)
Definition isDegenerate (last now next : Point) : bool :=
  let last_line := IntPoint.psub now last in
  let next_line := IntPoint.psub next now in
  IntPoint.dot last_line next_line =?
    vSize_wrap (vSize_wrap (-1 * vSize last_line) * vSize next_line).

(** The [while] loop that pops the back of [result]; [fuel] bounds the
    number of points popped. *)
Fixpoint removeDegenerateVerts_while (fuel : nat) (result : Path) (next : Point) :
    option Path :=
  if (1 <? length result)%nat then
    before_back ← result !! (length result - 2)%nat;
    back ← list.last result;
    if isDegenerate before_back back next then
      match fuel with
      | O => None
      | S fuel' => removeDegenerateVerts_while fuel' (removelast result) next
      end
    else Some result
  else Some result.

(** The loop over [idx] for one loop [poly]: [n] iterations remain from
    [idx] on; [break] leaves the loop with the result as it is. *)
Fixpoint removeDegenerateVerts_for (n : nat) (poly : Path) (idx : nat)
    (result : Path) : option Path :=
  match n with
  | O => Some result
  | S n' =>
    last ← (if (length result =? 0)%nat then list.last poly else list.last result);
    if (S idx =? length poly)%nat && (length result =? 0)%nat then Some result
    else
      next ← (if (S idx =? length poly)%nat then result !! 0%nat else poly !! S idx);
      now ← poly !! idx;
      if isDegenerate last now next then
        result' ← removeDegenerateVerts_while (length result) result next;
        removeDegenerateVerts_for n' poly (S idx) result'
      else removeDegenerateVerts_for n' poly (S idx) (result ++ [now])
  end.

(** The loop over the loops of the shape; [ret] is the shape returned. *)
Fixpoint removeDegenerateVerts_loop (rest : Paths) (ret : Paths) : option Paths :=
  match rest with
  | [] => Some ret
  | poly :: rest' =>
    result ← removeDegenerateVerts_for (length poly) poly 0 [];
    removeDegenerateVerts_loop rest'
      (if (2 <? length result)%nat then ret ++ [result] else ret)
  end.

(** [Polygons removeDegenerateVerts()]. *)
Definition removeDegenerateVerts (polygons : Paths) : option Paths :=
  removeDegenerateVerts_loop polygons [].

End DegenerateVerts.

(** [std::vector<Polygons> splitIntoParts(bool unionAll)]: the union of the
    loops is computed by the clipping engine, which is not part of the
    kernel; [Execute polygons unionAll] is the tree it returns (under the
    non-zero rule when [unionAll], under its default rule otherwise). *)
Definition splitIntoParts (Execute : Paths → bool → PolyNode)
    (polygons : Paths) (unionAll : bool) : list Paths :=
  _processPolyTreeNode (Execute polygons unionAll) [].

(** The loop [for (n = 1; n < polygons.size(); n++)] of [inside], over the
    loops that are still to be visited. *)
Fixpoint inside_loop (rest : Paths) (p : Point) : bool :=
  match rest with
  | [] => true
  | poly :: rest' =>
    if PolygonRef.inside poly p false then false else inside_loop rest' p
  end.

(** [bool inside(Point p)]; the loops are tested with the default
    [border_result = false]. *)
Definition inside (polygons : Paths) (p : Point) : bool :=
  if size polygons <? 1 then false
  else match polygons with
       | [] => false
       | poly0 :: rest =>
         if negb (PolygonRef.inside poly0 p false) then false
         else inside_loop rest p
       end.

(** *** [polygonLength], [min], [max], [smooth] and [simplify] of a shape *)

(** The outer loop of [polygonLength]; the inner loop is the one of
    [PolygonRef::polygonLength], on the same [length].  The point before the
    first is read at index [polygons[i].size()-1], computed in [size_t]. *)
Fixpoint polygonLength_loop (vSize : Point → Z) (rest : Paths) (length : Z) : option Z :=
  match rest with
  | [] => Some length
  | poly :: rest' =>
    p0 ← poly !! Z.to_nat ((PolygonRef.size poly - 1) mod 2 ^ 64);
    polygonLength_loop vSize rest' (PolygonRef.polygonLength_loop vSize poly p0 length)
  end.

(** [int64_t polygonLength() const]. *)
Definition polygonLength (vSize : Point → Z) (polygons : Paths) : option Z :=
  polygonLength_loop vSize polygons 0.

(** The outer loops of [min] and [max]; the inner loops are those of a
    single loop. *)
Fixpoint min_loop (rest : Paths) (ret : Point) : Point :=
  match rest with
  | [] => ret
  | polygon :: rest' => min_loop rest' (PolygonRef.min_loop polygon ret)
  end.

Fixpoint max_loop (rest : Paths) (ret : Point) : Point :=
  match rest with
  | [] => ret
  | polygon :: rest' => max_loop rest' (PolygonRef.max_loop polygon ret)
  end.

(** [Point min() const] and [Point max() const]. *)
Definition min (POINT_MAX : Z) (polygons : Paths) : Point :=
  min_loop polygons (mkPoint POINT_MAX POINT_MAX).

Definition max (POINT_MIN : Z) (polygons : Paths) : Point :=
  max_loop polygons (mkPoint POINT_MIN POINT_MIN).

(** The loop of [smooth(int remove_length, int min_area)].  [min_area], an
    [int], is converted to [double] for the comparison with the area. *)
Fixpoint smooth_loop (area : Path → float) (shorterThen : Point → Z → bool)
    (rest : Paths) (remove_length min_area : Z) (ret : Paths) : option Paths :=
  match rest with
  | [] => Some ret
  | poly :: rest' =>
    if PrimFloat.ltb (area poly) (IntPoint.Z2double min_area)
       || (PolygonRef.size poly <=? 5)
    then smooth_loop area shorterThen rest' remove_length min_area (ret ++ [poly])
    else if PolygonRef.size poly =? 0
    then smooth_loop area shorterThen rest' remove_length min_area ret
    else if PolygonRef.size poly <? 4
    then smooth_loop area shorterThen rest' remove_length min_area (ret ++ [poly])
    else
      result ← PolygonRef.smooth shorterThen poly remove_length [];
      smooth_loop area shorterThen rest' remove_length min_area (ret ++ [result])
  end.

(** [Polygons smooth(int remove_length, int min_area)]. *)
Definition smooth (area : Path → float) (shorterThen : Point → Z → bool)
    (polygons : Paths) (remove_length min_area : Z) : option Paths :=
  smooth_loop area shorterThen polygons remove_length min_area [].

(** The loop of [simplify(int allowed_error_distance)]: each loop is
    simplified into a new path of [ret]; the value is the pair of the loops
    of the shape after the calls and of [ret]. *)
Fixpoint simplify_loop (vSizeMM : Point → float) (rest : Paths)
    (allowed_error_distance_squared : Z) : option (Paths * Paths) :=
  match rest with
  | [] => Some ([], [])
  | poly :: rest' =>
    st ← PolygonRef.simplify vSizeMM poly allowed_error_distance_squared [];
    r ← simplify_loop vSizeMM rest' allowed_error_distance_squared;
    Some (st.1 :: r.1, st.2 :: r.2)
  end.

(** [Polygons simplify(int allowed_error_distance)]; the square is an [int]
    product. *)
Definition simplify (vSizeMM : Point → float) (polygons : Paths)
    (allowed_error_distance : Z) : option (Paths * Paths) :=
  simplify_loop vSizeMM polygons (mul32 allowed_error_distance allowed_error_distance).

End Polygons.

(** ** Bounding boxes: [cura::AABB] *)
Module AABB.

Record t : Type := mk { min : Point; max : Point }.

(** [AABB()]: both corners at the least point. *)
Definition init (POINT_MIN : Z) : t :=
  mk (mkPoint POINT_MIN POINT_MIN) (mkPoint POINT_MIN POINT_MIN).

(** The body of the loops of [calculate] for the point [polys[i][j]]: the
    four assignments under their tests. *)
Definition calculate_point (box : t) (p : Point) : t :=
  let mn := min box in
  let mx := max box in
  let mn := if X mn >? X p then mkPoint (X p) (Y mn) else mn in
  let mn := if Y mn >? Y p then mkPoint (X mn) (Y p) else mn in
  let mx := if X mx <? X p then mkPoint (X p) (Y mx) else mx in
  let mx := if Y mx <? Y p then mkPoint (X mx) (Y p) else mx in
  mk mn mx.

(** The loop over [j] and the loop over [i]. *)
Fixpoint calculate_points (rest : Path) (box : t) : t :=
  match rest with
  | [] => box
  | p :: rest' => calculate_points rest' (calculate_point box p)
  end.

Fixpoint calculate_loop (rest : Paths) (box : t) : t :=
  match rest with
  | [] => box
  | poly :: rest' => calculate_loop rest' (calculate_points poly box)
  end.

(** [void calculate(Polygons polys)]: the box after the call (the box
    before it is overwritten). *)
Definition calculate (POINT_MIN POINT_MAX : Z) (polys : Paths) : t :=
  calculate_loop polys (mk (mkPoint POINT_MAX POINT_MAX) (mkPoint POINT_MIN POINT_MIN)).

(** [bool hit(const AABB& other) const]. *)
Definition hit (box other : t) : bool :=
  if X (max box) <? X (min other) then false
  else if X (min box) >? X (max other) then false
  else if Y (max box) <? Y (min other) then false
  else if Y (min box) >? Y (max other) then false
  else true.

End AABB.

(** * Definitions for the statements *)

(** ** Loops of the examples *)

(** The square (0,0),(10,0),(10,10),(0,10) of the testable properties. *)
Definition square10 : Path :=
  [mkPoint 0 0; mkPoint 10 0; mkPoint 10 10; mkPoint 0 10].

(** The rectangle of width [w] and height [h] with a corner at the origin. *)
Definition rect (w h : Z) : Path :=
  [mkPoint 0 0; mkPoint w 0; mkPoint w h; mkPoint 0 h].

(** A square of side 10 to the right of [square10], apart from it. *)
Definition square10_right : Path :=
  [mkPoint 20 0; mkPoint 30 0; mkPoint 30 10; mkPoint 20 10].

(** A square hole inside [square10]. *)
Definition hole46 : Path :=
  [mkPoint 4 4; mkPoint 4 6; mkPoint 6 6; mkPoint 6 4].

(** A square of side 4; a loop whose rotation by 3 is within distance 3 of
    it, vertex by vertex; and a loop that visits (0,0) twice. *)
Definition square4 : Path :=
  [mkPoint 0 0; mkPoint 4 0; mkPoint 4 4; mkPoint 0 4].
Definition near_square4 : Path :=
  [mkPoint 2 0; mkPoint 4 4; mkPoint 0 4; mkPoint 2 1].
Definition twice_origin : Path :=
  [mkPoint 0 0; mkPoint 10 0; mkPoint 0 0; mkPoint 0 10].

(** A loop that starts at (10,0) and ends at (12,0), on the same horizontal
    line as the vertex (5,0) before it; and the loop without (12,0). *)
Definition hook : Path :=
  [mkPoint 10 0; mkPoint 0 0; mkPoint 0 10; mkPoint 5 10; mkPoint 5 0; mkPoint 12 0].
Definition hook_cleaned : Path :=
  [mkPoint 10 0; mkPoint 0 0; mkPoint 0 10; mkPoint 5 10; mkPoint 5 0].

(** ** [smooth] *)

(** The walk as the amended claim words it: after the first point, a point
    whose chord from the point emitted before it is short is skipped and the
    point after it is emitted without a test; any other point is emitted. *)
Fixpoint smooth_walk (shorterThen : Point → Z → bool) (remove_length : Z)
    (prev : Point) (rest : Path) : Path :=
  match rest with
  | [] => []
  | cur :: rest' =>
    if shorterThen (IntPoint.psub prev cur) remove_length then
      match rest' with
      | [] => []
      | nxt :: rest'' => nxt :: smooth_walk shorterThen remove_length nxt rest''
      end
    else cur :: smooth_walk shorterThen remove_length cur rest'
  end.

(** The walk as the claim words it: a short chord skips the current point
    and also the point after it. *)
Fixpoint smooth_walk_claimed (shorterThen : Point → Z → bool) (remove_length : Z)
    (prev : Point) (rest : Path) : Path :=
  match rest with
  | [] => []
  | cur :: rest' =>
    if shorterThen (IntPoint.psub prev cur) remove_length then
      match rest' with
      | [] => []
      | _ :: rest'' => smooth_walk_claimed shorterThen remove_length prev rest''
      end
    else cur :: smooth_walk_claimed shorterThen remove_length cur rest'
  end.

(** The result of [smooth] as the claim words it. *)
Definition smooth_claimed (shorterThen : Point → Z → bool) (thiss : Path)
    (remove_length : Z) : Path :=
  match thiss with
  | [] => []
  | p :: rest => p :: smooth_walk_claimed shorterThen remove_length p rest
  end.

(** ** [splitIntoParts] *)

(** Induction on a contour tree, with the property known of every child. *)
Section PolyNode_induction.

Variable P : PolyNode → Prop.
Hypothesis Hnode : ∀ contour childs, Forall P childs → P (mkPolyNode contour childs).

Fixpoint PolyNode_forall_ind (node : PolyNode) : P node :=
  match node with
  | mkPolyNode contour childs =>
    Hnode contour childs
      ((fix go (l : list PolyNode) : Forall P l :=
          match l with
          | [] => Forall_nil P
          | x :: l' => Forall_cons P x l' (PolyNode_forall_ind x) (go l')
          end) childs)
  end.

End PolyNode_induction.

(** The part of a node: its contour, then the contours of its children. *)
Definition part_of (node : PolyNode) : Paths :=
  Contour node :: map Contour (Childs node).

(** The nodes at an outer depth below [node] (the root, or a hole): its
    children, and the nodes at an outer depth below each child of a child. *)
Fixpoint outer_nodes (node : PolyNode) : list PolyNode :=
  flat_map (λ child, child :: flat_map outer_nodes (Childs child)) (Childs node).

(** What a call of [_processPolyTreeNode] on [node] does to [ret]. *)
Definition process_spec (node : PolyNode) : Prop :=
  ∀ ret, ∃ parts, Polygons._processPolyTreeNode node ret = ret ++ parts ∧
                  parts ≡ₚ map part_of (outer_nodes node).

(** ** [remove] *)

(** The decision of the code on two loops: the value that [remove_match]
    returns, computed on the [int] distances of the code. *)
Definition code_match (same_distance : Z) (poly_keep poly_rem : Path) : bool :=
  match Polygons.remove_match poly_keep poly_rem same_distance with
  | Some b => b
  | None => false
  end.

(** Whether a loop has a point. *)
Definition nonempty (poly : Path) : bool := (0 <? length poly)%nat.

(** The squared distance of two points, as a number. *)
Definition dist2 (a b : Point) : Z :=
  (X a - X b) * (X a - X b) + (Y a - Y b) * (Y a - Y b).

(** [k] is the index of the first point of [poly_rem] at the least squared
    distance from [keep0], and [r] is that point. *)
Definition first_closest (poly_rem : Path) (keep0 : Point) (k : nat) (r : Point) : Prop :=
  poly_rem !! k = Some r ∧
  (∀ j q, poly_rem !! j = Some q → dist2 r keep0 ≤ dist2 q keep0) ∧
  (∀ j q, (j < k)%nat → poly_rem !! j = Some q → dist2 r keep0 < dist2 q keep0).

(** Every pair of points, one of each loop, has a squared distance that an
    [int] holds. *)
Definition distances_fit (poly_keep poly_rem : Path) : Prop :=
  ∀ r p, r ∈ poly_rem → p ∈ poly_keep → dist2 r p < 2 ^ 31.

(** The index of the first least number of a list. *)
Fixpoint first_argmin (ds : list Z) : nat :=
  match ds with
  | [] => 0
  | d :: ds' =>
    match ds' !! first_argmin ds' with
    | Some m => if d <=? m then 0 else S (first_argmin ds')
    | None => 0
    end
  end.

(** Every point of [l] is within the squared distance [d2] of the point of
    [k] at the same index. *)
Fixpoint all_within (d2 : Z) (l k : Path) : bool :=
  match l, k with
  | r :: l', p :: k' => (dist2 r p <=? d2) && all_within d2 l' k'
  | _, _ => true
  end.

(** A match within the tolerance [same_distance], on the distances as
    numbers: the candidate has the vertex count of the loop; its vertex of
    least squared distance to vertex 0 of the loop (the first of them) gives
    the rotation offset; that least distance does not exceed
    [same_distance]²; and under that cyclic shift no pair of vertices
    exceeds [same_distance]². *)
Definition match_within (same_distance : Z) (poly_keep poly_rem : Path) : bool :=
  match poly_keep with
  | [] => false
  | keep0 :: _ =>
    (length poly_rem =? length poly_keep)%nat &&
    let offset := first_argmin ((λ r, dist2 r keep0) <$> poly_rem) in
    match poly_rem !! offset with
    | Some r =>
      (dist2 r keep0 <=? same_distance * same_distance) &&
      all_within (same_distance * same_distance) (rotate offset poly_rem) poly_keep
    | None => false
    end
  end.

(** ** [translate] *)

(** The shift of a point by [(dx, dy)] without wrap-around. *)
Definition shift_point (dx dy : Z) (q : Point) : Point := mkPoint (X q + dx) (Y q + dy).

(** * Properties *)

Lemma inside_nil (p : Point) (b : bool) : PolygonRef.inside [] p b = false.
Proof. reflexivity. Qed.

(** C1. Point-in-polygon classification on the square (0,0),(10,0),(10,10),
    (0,10): (5,5) is inside, (20,5) is outside, the edge point (10,5) and the
    corner (10,10) give the caller's [border_result]; and on the empty loop
    every query point is outside. *)
Theorem C1_inside_square :
  (∀ b, PolygonRef.inside square10 (mkPoint 5 5) b = true) ∧
  (∀ b, PolygonRef.inside square10 (mkPoint 20 5) b = false) ∧
  (∀ b, PolygonRef.inside square10 (mkPoint 10 5) b = b) ∧
  (∀ b, PolygonRef.inside square10 (mkPoint 10 10) b = b) ∧
  (∀ p b, PolygonRef.inside [] p b = false).
Proof.
  split; [|split; [|split; [|split]]].
  - intros b. vm_compute. reflexivity.
  - intros b. vm_compute. reflexivity.
  - intros b. vm_compute. reflexivity.
  - intros b. vm_compute. reflexivity.
  - exact inside_nil.
Qed.

Lemma Polygons_inside_loop_spec (rest : Paths) (p : Point) :
  Polygons.inside_loop rest p = true ↔
  ∀ (i : nat) (poly : Path), rest !! i = Some poly → PolygonRef.inside poly p false = false.
Proof.
  induction rest as [|q rest IH]; simpl.
  - split; [intros _ i poly H; discriminate | done].
  - destruct (PolygonRef.inside q p false) eqn:Hq.
    + split; [discriminate|]. intros H. specialize (H 0%nat q eq_refl). congruence.
    + rewrite IH. split.
      * intros H [|i] poly Hi; simpl in Hi; [congruence | eauto].
      * intros H i poly Hi. apply (H (S i)). exact Hi.
Qed.

(** C10. A shape contains [p] exactly when its loop 0 contains [p] and no
    loop at index 1 or beyond does (each of them counts as a hole, whatever
    its nesting or orientation); a shape without loops contains no point. *)
Theorem C10_Polygons_inside (polygons : Paths) (p : Point) :
  (Polygons.inside polygons p = true ↔
     (∃ poly0, polygons !! 0%nat = Some poly0 ∧ PolygonRef.inside poly0 p false = true) ∧
     (∀ (n : nat) (poly : Path), (1 ≤ n)%nat → polygons !! n = Some poly →
        PolygonRef.inside poly p false = false)) ∧
  Polygons.inside [] p = false.
Proof.
  split; [|reflexivity].
  destruct polygons as [|poly0 rest].
  - simpl. split; [discriminate|]. intros [[q [Hq _]] _]. discriminate.
  - unfold Polygons.inside, Polygons.size.
    replace (Z.of_nat (length (poly0 :: rest)) <? 1) with false
      by (symmetry; apply Z.ltb_ge; simpl length; lia).
    destruct (PolygonRef.inside poly0 p false) eqn:H0; simpl.
    + rewrite Polygons_inside_loop_spec. split.
      * intros H. split; [eauto|]. intros [|n] poly Hn Hl; [lia|]. eapply H, Hl.
      * intros [_ H] i poly Hi. apply (H (S i)); [lia | exact Hi].
    + split; [discriminate|]. intros [[q [Hq Hin]] _]. simplify_eq. congruence.
Qed.

(** C10 at a square with a square hole: a point of the ring is in the
    shape. *)
Lemma C10_Polygons_inside_witness :
  Polygons.inside [square10; hole46] (mkPoint 2 2) = true.
Proof.
  apply (proj1 (C10_Polygons_inside [square10; hole46] (mkPoint 2 2))).
  split.
  - exists square10. split; reflexivity.
  - intros [|[|n]] poly Hn Hl; [lia | | destruct n; discriminate].
    injection Hl as <-. reflexivity.
Defined.

(** ** [polygonLength] *)

Lemma polygonLength_nonempty vSize (thiss : Path) :
  thiss ≠ [] → Z.of_nat (length thiss) < 2 ^ 64 →
  ∃ p0, list.last thiss = Some p0 ∧
        PolygonRef.polygonLength vSize thiss =
          Some (PolygonRef.polygonLength_loop vSize thiss p0 0).
Proof.
  intros Hne Hlen. unfold PolygonRef.polygonLength, PolygonRef.size.
  destruct (list.last thiss) as [p0|] eqn:Hlast.
  2:{ apply last_None in Hlast. contradiction. }
  exists p0. split; [done|].
  assert (length thiss ≠ 0)%nat by (destruct thiss; simpl; [done|lia]).
  rewrite Z.mod_small by lia.
  replace (Z.to_nat (Z.of_nat (length thiss) - 1)) with (pred (length thiss)) by lia.
  rewrite last_lookup in Hlast. rewrite Hlast. reflexivity.
Qed.

Example polygonLength_square10 :
  PolygonRef.polygonLength IntPoint.vSize square10 = Some 40.
Proof. vm_compute. reflexivity. Qed.

(** C9. Evaluation of [polygonLength] on the empty loop: the statement before
    the loop reads the point at index [size()-1], which for no points is
    2^64-1; the access is out of range and the call has no value. *)
Theorem C9_polygonLength_empty_out_of_range (vSize : Point → Z) :
  PolygonRef.polygonLength vSize [] = None.
Proof. reflexivity. Qed.

(** ** [smooth] *)

(** The loop condition fails: the index has reached the size. *)
Ltac loop_exit :=
  let Hd := fresh "Hd" in
  case_decide as Hd;
  [ rewrite ?length_app in Hd; simpl in Hd; lia
  | rewrite ?app_nil_r; reflexivity ].

Lemma smooth_loop_walk sh len (n : nat) :
  ∀ (rest : Path), (length rest ≤ n)%nat →
  ∀ (fuel : nat) (pre : Path) (prev : Point) (poly : Path),
    (length rest ≤ fuel)%nat →
    PolygonRef.smooth_loop sh fuel (pre ++ prev :: rest) len (S (length pre)) poly =
      Some (poly ++ smooth_walk sh len prev rest).
Proof.
  induction n as [|n IH]; intros rest Hn fuel pre prev poly Hfuel.
  - destruct rest; [|simpl in Hn; lia]. destruct fuel; simpl; loop_exit.
  - destruct rest as [|cur rest'].
    { destruct fuel; simpl; loop_exit. }
    destruct fuel as [|fuel']; [simpl in Hfuel; lia|].
    simpl in Hn, Hfuel. cbn [PolygonRef.smooth_loop].
    rewrite decide_True by (rewrite length_app; simpl; lia).
    replace (S (length pre) - 1)%nat with (length pre) by lia.
    rewrite (list_lookup_middle pre _ prev (length pre) eq_refl). cbn [mbind option_bind].
    replace (pre ++ prev :: cur :: rest') with ((pre ++ [prev]) ++ cur :: rest')
      by (by rewrite <- app_assoc).
    replace (S (length pre)) with (length (pre ++ [prev]))
      by (rewrite length_app; simpl; lia).
    rewrite (list_lookup_middle (pre ++ [prev]) _ cur _ eq_refl).
    cbn [mbind option_bind smooth_walk].
    destruct (sh (IntPoint.psub prev cur) len).
    + destruct rest' as [|nxt rest''].
      * rewrite decide_False by (rewrite !length_app; simpl; lia).
        destruct fuel'; simpl; loop_exit.
      * rewrite decide_True by (rewrite !length_app; simpl; lia).
        replace ((pre ++ [prev]) ++ cur :: nxt :: rest'')
          with ((pre ++ [prev; cur]) ++ nxt :: rest'')
          by (rewrite <- !app_assoc; reflexivity).
        replace (S (length (pre ++ [prev]))) with (length (pre ++ [prev; cur]))
          by (rewrite !length_app; simpl; lia).
        rewrite (list_lookup_middle (pre ++ [prev; cur]) _ nxt _ eq_refl).
        cbn [mbind option_bind].
        rewrite IH by (simpl in *; lia).
        by rewrite <- app_assoc.
    + rewrite IH by (simpl in *; lia).
      by rewrite <- app_assoc.
Qed.

(** C4 (as amended). [smooth] appends to the result the first point of a
    non-empty loop and then walks the other points: a point whose chord from
    the point emitted before it is shorter than [remove_length] is skipped,
    and the point after it is emitted without being tested; any other point
    is emitted.  The call always returns. *)
Theorem C4_smooth_walk (shorterThen : Point → Z → bool) (thiss : Path)
    (remove_length : Z) (poly : Path) :
  PolygonRef.smooth shorterThen thiss remove_length poly =
    Some (poly ++ match thiss with
                  | [] => []
                  | p :: rest => p :: smooth_walk shorterThen remove_length p rest
                  end).
Proof.
  destruct thiss as [|p rest].
  - simpl. by rewrite app_nil_r.
  - unfold PolygonRef.smooth. rewrite decide_True by (simpl; lia).
    cbn [lookup list_lookup mbind option_bind].
    change (p :: rest) with ([] ++ p :: rest) at 2.
    change 1%nat with (S (length (@nil Point))).
    rewrite smooth_loop_walk with (n := length rest) by (simpl; lia).
    by rewrite <- app_assoc.
Qed.

(** C4, the claim as stated, fails on the loop (0,0),(1,0),(2,0) with
    [remove_length] 5: the chord to (1,0) is short, (1,0) is skipped, and
    the point after it, (2,0), is emitted, where the claim has it skipped. *)
Lemma C4_smooth_next_point_emitted :
  PolygonRef.smooth IntPoint.shorterThen [mkPoint 0 0; mkPoint 1 0; mkPoint 2 0] 5 [] =
    Some [mkPoint 0 0; mkPoint 2 0] ∧
  smooth_claimed IntPoint.shorterThen [mkPoint 0 0; mkPoint 1 0; mkPoint 2 0] 5 =
    [mkPoint 0 0] ∧
  PolygonRef.smooth IntPoint.shorterThen [mkPoint 0 0; mkPoint 1 0; mkPoint 2 0] 5 [] ≠
    Some (smooth_claimed IntPoint.shorterThen [mkPoint 0 0; mkPoint 1 0; mkPoint 2 0] 5).
Proof. vm_compute. repeat split; discriminate. Qed.

(** ** [splitIntoParts] *)

(** What the inner loop leaves: the contours appended, and the parts of the
    islands of every hole. *)
Lemma inner_loop_spec (holes : list PolyNode) :
  Forall (λ hole, ∀ ret, ∃ parts, Polygons._processPolyTreeNode hole ret = ret ++ parts ∧
                                   parts ≡ₚ map part_of (outer_nodes hole)) holes →
  ∀ polygons ret, ∃ parts,
    fold_left (λ (st : Paths * list Paths) (grandchild : PolyNode),
                 (st.1 ++ [Contour grandchild],
                  Polygons._processPolyTreeNode grandchild st.2))
              holes (polygons, ret)
    = (polygons ++ map Contour holes, ret ++ parts) ∧
    parts ≡ₚ map part_of (flat_map outer_nodes holes).
Proof.
  induction 1 as [|hole holes Hh _ IH]; intros polygons ret.
  - exists []. simpl. by rewrite !app_nil_r.
  - simpl. destruct (Hh ret) as [ps [-> Hps]].
    destruct (IH (polygons ++ [Contour hole]) (ret ++ ps)) as [ps' [-> Hps']].
    exists (ps ++ ps'). rewrite <- !app_assoc. split; [done|].
    rewrite map_app. by apply Permutation_app.
Qed.

Lemma outer_loop_spec (childs : list PolyNode) :
  Forall (λ child, Forall process_spec (Childs child)) childs →
  ∀ ret, ∃ parts,
    fold_left
      (λ (ret : list Paths) (child : PolyNode),
         let '(polygons, ret) :=
           fold_left
             (λ (st : Paths * list Paths) (grandchild : PolyNode),
                (st.1 ++ [Contour grandchild],
                 Polygons._processPolyTreeNode grandchild st.2))
             (Childs child) ([Contour child], ret) in
         ret ++ [polygons])
      childs ret = ret ++ parts ∧
    parts ≡ₚ map part_of
               (flat_map (λ child, child :: flat_map outer_nodes (Childs child)) childs).
Proof.
  induction 1 as [|child childs Hc _ IH]; intros ret.
  - exists []. simpl. by rewrite app_nil_r.
  - cbn [fold_left flat_map].
    destruct (inner_loop_spec (Childs child) Hc [Contour child] ret) as [ps [-> Hps]].
    destruct (IH ((ret ++ ps) ++ [part_of child])) as [ps' [Heq Hps']].
    exists (ps ++ part_of child :: ps'). split.
    + unfold part_of in Heq. cbn [app] in Heq |- *. rewrite Heq.
      rewrite <- !app_assoc. reflexivity.
    + rewrite <- Permutation_middle. cbn [app map]. constructor.
      rewrite map_app. by apply Permutation_app.
Qed.

Lemma processPolyTreeNode_spec (node : PolyNode) : process_spec node.
Proof.
  cut (process_spec node ∧ Forall process_spec (Childs node)); [by intros [? _]|].
  induction node as [contour childs IH] using PolyNode_forall_ind.
  assert (Hchilds : Forall process_spec childs)
    by (eapply Forall_impl; [|exact IH]; by intros ? [? _]).
  split; [|exact Hchilds].
  intros ret. apply (outer_loop_spec childs).
  eapply Forall_impl; [|exact IH]. by intros ? [_ ?].
Qed.

(** C2. [splitIntoParts] emits one shape for every node at an outer depth
    of the engine's tree: the node's contour as loop 0, then the contours of
    its direct children (its holes); the children of the holes are outer
    nodes again and give parts of their own.  When the tree is one outline
    with one hole, the result is the single part [outer; hole]; when it is
    two outlines without children, the result is two parts of one loop. *)
Theorem C2_splitIntoParts (Execute : Paths → bool → PolyNode)
    (polygons : Paths) (unionAll : bool) :
  Polygons.splitIntoParts Execute polygons unionAll
    ≡ₚ map part_of (outer_nodes (Execute polygons unionAll)) ∧
  (∀ root outer hole,
     Execute polygons unionAll = mkPolyNode root [mkPolyNode outer [mkPolyNode hole []]] →
     Polygons.splitIntoParts Execute polygons unionAll = [[outer; hole]]) ∧
  (∀ root square1 square2,
     Execute polygons unionAll =
       mkPolyNode root [mkPolyNode square1 []; mkPolyNode square2 []] →
     Polygons.splitIntoParts Execute polygons unionAll = [[square1]; [square2]]).
Proof.
  unfold Polygons.splitIntoParts. split; [|split].
  - destruct (processPolyTreeNode_spec (Execute polygons unionAll) []) as [ps [-> Hps]].
    exact Hps.
  - intros root outer hole ->. reflexivity.
  - intros root square1 square2 ->. reflexivity.
Qed.

(** C2 at a square with a square hole and at two disjoint squares, for an
    engine that answers with their contour trees. *)
Lemma C2_splitIntoParts_witness :
  Polygons.splitIntoParts
    (λ _ _, mkPolyNode [] [mkPolyNode square10 [mkPolyNode hole46 []]])
    [square10; hole46] false = [[square10; hole46]] ∧
  Polygons.splitIntoParts
    (λ _ _, mkPolyNode [] [mkPolyNode square10 []; mkPolyNode square10_right []])
    [square10; square10_right] false = [[square10]; [square10_right]].
Proof.
  split.
  - exact (proj1 (proj2 (C2_splitIntoParts
             (λ _ _, mkPolyNode [] [mkPolyNode square10 [mkPolyNode hole46 []]])
             [square10; hole46] false)) [] square10 hole46 eq_refl).
  - exact (proj2 (proj2 (C2_splitIntoParts
             (λ _ _, mkPolyNode [] [mkPolyNode square10 []; mkPolyNode square10_right []])
             [square10; square10_right] false)) [] square10 square10_right eq_refl).
Defined.

(** ** [removeSmallAreas] *)








(** ** [remove] *)

Lemma remove_compare_loop_total (n : nat) :
  ∀ poly_rem poly_keep c sd idx,
    (0 < length poly_rem)%nat → (idx + n ≤ length poly_keep)%nat →
    is_Some (Polygons.remove_compare_loop n poly_rem poly_keep c sd idx).
Proof.
  induction n as [|n IH]; intros poly_rem poly_keep c sd idx Hrem Hkeep; [eexists; reflexivity|].
  cbn [Polygons.remove_compare_loop].
  destruct (lookup_lt_is_Some_2 poly_rem ((c + idx) mod length poly_rem)%nat) as [pr ->];
    [apply Nat.mod_upper_bound; lia|].
  destruct (lookup_lt_is_Some_2 poly_keep idx) as [pk ->]; [lia|].
  cbn [mbind option_bind].
  destruct (_ >? _); [eexists; reflexivity|]. apply IH; lia.
Qed.

Lemma remove_match_total (poly_keep poly_rem : Path) (sd : Z) :
  is_Some (Polygons.remove_match poly_keep poly_rem sd).
Proof.
  unfold Polygons.remove_match.
  destruct (length poly_rem =? length poly_keep)%nat eqn:Hlen; [|eexists; reflexivity].
  destruct (length poly_rem =? 0)%nat eqn:H0; [eexists; reflexivity|]. cbn [negb orb].
  apply Nat.eqb_eq in Hlen. apply Nat.eqb_neq in H0.
  destruct (lookup_lt_is_Some_2 poly_keep 0%nat) as [keep0 ->]; [lia|].
  cbn [mbind option_bind].
  destruct (Polygons.remove_closest_loop _ _ _ _ _) as [c s].
  destruct (_ >? _); [eexists; reflexivity|].
  apply remove_compare_loop_total; lia.
Qed.

Lemma remove_should_be_removed_spec (poly_keep : Path) (to_be_removed : Paths) (sd : Z) :
  Polygons.remove_should_be_removed poly_keep to_be_removed sd =
    Some (existsb (code_match sd poly_keep) to_be_removed).
Proof.
  induction to_be_removed as [|poly_rem rest IH]; [done|].
  cbn [Polygons.remove_should_be_removed existsb]. unfold code_match at 1.
  destruct (remove_match_total poly_keep poly_rem sd) as [b ->].
  cbn [mbind option_bind]. destruct b; [done|]. by rewrite IH.
Qed.

Lemma remove_loop_spec (to_be_removed : Paths) (sd : Z) (rest : Paths) :
  ∀ result,
    Polygons.remove_loop rest to_be_removed sd result =
      Some (result ++ List.filter
              (λ poly_keep, negb (nonempty poly_keep &&
                                  existsb (code_match sd poly_keep) to_be_removed))
              rest).
Proof.
  induction rest as [|poly_keep rest IH]; intros result.
  - simpl. by rewrite app_nil_r.
  - cbn [Polygons.remove_loop List.filter]. unfold PolygonRef.size, nonempty at 1.
    replace (0 <? Z.of_nat (length poly_keep)) with (0 <? length poly_keep)%nat.
    2:{ destruct (length poly_keep); reflexivity. }
    destruct (0 <? length poly_keep)%nat.
    + rewrite remove_should_be_removed_spec. cbn [mbind option_bind andb].
      destruct (existsb _ _); cbn [negb]; rewrite IH; [done|].
      by rewrite <- app_assoc.
    + cbn [mbind option_bind andb negb]. rewrite IH. by rewrite <- app_assoc.
Qed.

Lemma filter_filter_comm {A} (f g : A → bool) (l : list A) :
  List.filter f (List.filter g l) = List.filter (λ x, f x && g x) l.
Proof.
  induction l as [|x l IH]; [done|]. simpl.
  destruct (g x); simpl; destruct (f x); simpl; by rewrite IH.
Qed.

(** Two points 65536 units apart are taken for the same point with
    tolerance 0: the squared distance 2^32 is 0 as an [int]. *)
Example remove_match_truncates_distance :
  Polygons.remove_match [mkPoint 0 0] [mkPoint 65536 0] 0 = Some true.
Proof. vm_compute. reflexivity. Qed.

(** *** The matching of two loops *)

Lemma wrap64_small (z : Z) : fits 64 z → wrap64 z = z.
Proof.
  unfold fits, wrap64, wrap. intros H.
  change (2 ^ (64 - 1)) with 9223372036854775808 in *.
  change (2 ^ 64) with 18446744073709551616.
  rewrite Z.mod_small; lia.
Qed.

Lemma wrap32_small (z : Z) : fits 32 z → wrap32 z = z.
Proof.
  unfold fits, wrap32, wrap. intros H.
  change (2 ^ (32 - 1)) with 2147483648 in *.
  change (2 ^ 32) with 4294967296.
  rewrite Z.mod_small; lia.
Qed.

Lemma dist2_nonneg (a b : Point) : 0 ≤ dist2 a b.
Proof.
  unfold dist2.
  pose proof (Z.square_nonneg (X a - X b)). pose proof (Z.square_nonneg (Y a - Y b)).
  lia.
Qed.

Lemma vSize2_small (dx dy : Z) :
  dx * dx + dy * dy < 2147483648 →
  wrap32 (add64 (mul64 (wrap64 dx) (wrap64 dx)) (mul64 (wrap64 dy) (wrap64 dy))) =
    dx * dx + dy * dy.
Proof.
  intros H.
  assert (Hxx : 0 ≤ dx * dx) by nia. assert (Hyy : 0 ≤ dy * dy) by nia.
  assert (Hx : -65536 < dx < 65536) by nia.
  assert (Hy : -65536 < dy < 65536) by nia.
  assert (F : ∀ z, -9223372036854775808 ≤ z < 9223372036854775808 → wrap64 z = z).
  { intros z Hz. apply wrap64_small. unfold fits.
    change (2 ^ (64 - 1)) with 9223372036854775808. lia. }
  unfold add64, mul64.
  rewrite (F dx), (F dy) by lia.
  rewrite (F (dx * dx)), (F (dy * dy)) by lia.
  rewrite F by lia.
  apply wrap32_small. unfold fits. change (2 ^ (32 - 1)) with 2147483648. lia.
Qed.

Lemma vSize2_psub_small (a b : Point) :
  dist2 a b < 2 ^ 31 → wrap32 (IntPoint.vSize2 (IntPoint.psub a b)) = dist2 a b.
Proof.
  intros H. unfold dist2 in *. change (2 ^ 31) with 2147483648 in H.
  unfold IntPoint.vSize2, IntPoint.psub, sub64. cbn [X Y].
  by apply vSize2_small.
Qed.

Lemma remove_closest_loop_spec (keep0 : Point) (rest : Path) :
  ∀ (pre : Path) (c : nat) (r : Point),
    (∀ q, q ∈ pre ++ rest → dist2 q keep0 < 2 ^ 31) →
    first_closest pre keep0 c r →
    ∃ c' r',
      Polygons.remove_closest_loop rest keep0 (length pre) c (dist2 r keep0) =
        (c', dist2 r' keep0) ∧
      first_closest (pre ++ rest) keep0 c' r'.
Proof.
  induction rest as [|p rest IH]; intros pre c r Hfit Hfc.
  - exists c, r. rewrite app_nil_r. done.
  - cbn [Polygons.remove_closest_loop].
    rewrite vSize2_psub_small by (apply Hfit, elem_of_app; right; left).
    pose proof (dist2_nonneg r keep0) as Hr.
    replace (dist2 r keep0 <? 0) with false by (symmetry; apply Z.ltb_ge; lia).
    rewrite orb_false_r.
    destruct Hfc as (Hc & Hmin & Hfirst).
    assert (Hcons : pre ++ p :: rest = (pre ++ [p]) ++ rest) by (by rewrite <- app_assoc).
    replace (S (length pre)) with (length (pre ++ [p])) by (rewrite length_app; simpl; lia).
    rewrite Hcons in *.
    destruct (Z.ltb_spec (dist2 p keep0) (dist2 r keep0)) as [Hlt|Hge].
    + apply IH; [exact Hfit|]. repeat split.
      * by rewrite (list_lookup_middle pre [] p _ eq_refl).
      * intros j q Hj. apply lookup_app_Some in Hj as [Hj|[_ Hj]].
        -- specialize (Hmin j q Hj). lia.
        -- apply list_lookup_singleton_Some in Hj as [_ <-]. lia.
      * intros j q Hjc Hj. rewrite lookup_app_l in Hj by done.
        specialize (Hmin j q Hj). lia.
    + apply IH; [exact Hfit|]. repeat split.
      * by apply lookup_app_l_Some.
      * intros j q Hj. apply lookup_app_Some in Hj as [Hj|[_ Hj]]; [eauto|].
        apply list_lookup_singleton_Some in Hj as [_ <-]. lia.
      * intros j q Hjc Hj. apply lookup_lt_Some in Hc.
        rewrite lookup_app_l in Hj by lia. eauto.
Qed.

Lemma remove_closest_loop_first (keep0 : Point) (poly_rem : Path) :
  poly_rem ≠ [] →
  (∀ q, q ∈ poly_rem → dist2 q keep0 < 2 ^ 31) →
  ∃ c r,
    Polygons.remove_closest_loop poly_rem keep0 0 0 (-1) = (c, dist2 r keep0) ∧
    first_closest poly_rem keep0 c r.
Proof.
  destruct poly_rem as [|p rest]; [done|]. intros _ Hfit.
  cbn [Polygons.remove_closest_loop].
  replace (-1 <? 0) with true by reflexivity. rewrite orb_true_r.
  rewrite vSize2_psub_small by (apply Hfit; left).
  apply (remove_closest_loop_spec keep0 rest [p] 0%nat p); [exact Hfit|].
  split; [reflexivity|split].
  - intros j q Hj. apply list_lookup_singleton_Some in Hj as [_ <-]. lia.
  - intros j q Hj. lia.
Qed.

Lemma first_closest_unique (poly_rem : Path) (keep0 : Point) k r k' r' :
  first_closest poly_rem keep0 k r → first_closest poly_rem keep0 k' r' →
  k = k' ∧ r = r'.
Proof.
  intros (Hk & Hmin & Hfirst) (Hk' & Hmin' & Hfirst').
  assert (k = k') as <-.
  { destruct (Nat.lt_trichotomy k k') as [Hlt|[?|Hlt]]; [|done|].
    - specialize (Hfirst' k r Hlt Hk). specialize (Hmin k' r' Hk'). lia.
    - specialize (Hfirst k' r' Hlt Hk'). specialize (Hmin' k r Hk). lia. }
  split; [done|congruence].
Qed.

Lemma nat_mod_rotate_nat_add (c i len : nat) :
  ((c + i) mod len)%nat = rotate_nat_add c i len.
Proof.
  unfold rotate_nat_add. destruct len as [|len].
  - cbn [Nat.modulo Z.of_nat]. rewrite Z.mod_0_r. lia.
  - rewrite <- Nat2Z.inj_add, <- Nat2Z.inj_mod. by rewrite Nat2Z.id.
Qed.

Lemma mul32_small (sd : Z) : sd * sd < 2 ^ 31 → mul32 sd sd = sd * sd.
Proof.
  intros H. apply wrap32_small. unfold fits.
  change (2 ^ (32 - 1)) with (2 ^ 31). pose proof (Z.square_nonneg sd). lia.
Qed.

Lemma remove_compare_loop_spec (poly_rem poly_keep : Path) (c : nat) (sd : Z) (n : nat) :
  (0 < length poly_rem)%nat → length poly_rem = length poly_keep →
  distances_fit poly_keep poly_rem → sd * sd < 2 ^ 31 →
  ∀ idx, (idx + n = length poly_keep)%nat →
    Polygons.remove_compare_loop n poly_rem poly_keep c sd idx = Some true ↔
    (∀ i r p, (idx ≤ i)%nat → rotate c poly_rem !! i = Some r → poly_keep !! i = Some p →
              dist2 r p ≤ sd * sd).
Proof.
  intros Hpos Hlen Hfit Hsd. induction n as [|n IH]; intros idx Hidx.
  - simpl. split; [|done]. intros _ i r p Hi _ Hp. apply lookup_lt_Some in Hp. lia.
  - cbn [Polygons.remove_compare_loop].
    rewrite nat_mod_rotate_nat_add, <- lookup_rotate_r by lia.
    destruct (lookup_lt_is_Some_2 (rotate c poly_rem) idx) as [pr Hpr];
      [rewrite length_rotate; lia|].
    destruct (lookup_lt_is_Some_2 poly_keep idx) as [pk Hpk]; [lia|].
    rewrite Hpr, Hpk. cbn [mbind option_bind].
    assert (Hin : pr ∈ poly_rem)
      by (eapply elem_of_rotate, list_elem_of_lookup_2, Hpr).
    rewrite vSize2_psub_small
      by (apply Hfit; [exact Hin | eapply list_elem_of_lookup_2, Hpk]).
    rewrite mul32_small by done.
    destruct (Z.gtb_spec (dist2 pr pk) (sd * sd)) as [Hgt|Hle].
    + split; [discriminate|]. intros H. specialize (H idx pr pk (le_n _) Hpr Hpk). lia.
    + rewrite IH by lia. split.
      * intros H i r p Hi Hr Hp. destruct (decide (i = idx)) as [->|Hne].
        -- congruence.
        -- apply (H i); [lia|done..].
      * intros H i r p Hi. apply H. lia.
Qed.

(** Evaluate the rotations of closed lists in the goal. *)
Ltac eval_rotate :=
  repeat match goal with
         | |- context [rotate ?n ?l] =>
           let r := eval vm_compute in (rotate n l) in
           change (rotate n l) with r
         end.

Lemma first_argmin_spec (ds : list Z) :
  ds ≠ [] →
  ∃ m, ds !! first_argmin ds = Some m ∧
       (∀ j d, ds !! j = Some d → m ≤ d) ∧
       (∀ j d, (j < first_argmin ds)%nat → ds !! j = Some d → m < d).
Proof.
  induction ds as [|d ds IH]; [done|]. intros _.
  destruct ds as [|d' ds'].
  { exists d. simpl. split; [done|]. split.
    - intros [|j] e He; simpl in He; [injection He as <-; lia|discriminate].
    - intros j e Hj. lia. }
  destruct IH as (m & Hm & Hmin & Hfirst); [done|].
  set (ds := d' :: ds') in *. cbn [first_argmin]. rewrite Hm.
  destruct (Z.leb_spec d m) as [Hle|Hgt].
  - exists d. split; [done|]. split.
    + intros [|j] e He; simpl in He; [injection He as <-; lia|].
      specialize (Hmin j e He). lia.
    + intros j e Hj. lia.
  - exists m. split; [exact Hm|]. split.
    + intros [|j] e He; simpl in He; [injection He as <-; lia|]. by apply (Hmin j).
    + intros [|j] e Hj He; simpl in He; [injection He as <-; lia|].
      apply (Hfirst j); [lia|done].
Qed.

Lemma first_argmin_first_closest (poly_rem : Path) (keep0 : Point) :
  poly_rem ≠ [] →
  ∃ r, first_closest poly_rem keep0
         (first_argmin ((λ r, dist2 r keep0) <$> poly_rem)) r.
Proof.
  intros Hne.
  destruct (first_argmin_spec ((λ r, dist2 r keep0) <$> poly_rem))
    as (m & Hm & Hmin & Hfirst).
  { destruct poly_rem; [done|discriminate]. }
  rewrite list_lookup_fmap in Hm.
  destruct (poly_rem !! _) as [r|] eqn:Hr; [|discriminate].
  injection Hm as <-. exists r. split; [exact Hr|]. split.
  - intros j q Hq. apply (Hmin j). by rewrite list_lookup_fmap, Hq.
  - intros j q Hj Hq. apply (Hfirst j); [done|]. by rewrite list_lookup_fmap, Hq.
Qed.

Lemma all_within_spec (d2 : Z) (l : Path) :
  ∀ k, all_within d2 l k = true ↔
       ∀ i r p, l !! i = Some r → k !! i = Some p → dist2 r p ≤ d2.
Proof.
  induction l as [|r l IH]; intros k.
  { split; [|done]. intros _ i r p Hr. discriminate. }
  destruct k as [|p k].
  { split; [|done]. intros _ i r' p' _ Hp. discriminate. }
  cbn [all_within]. rewrite andb_true_iff, Z.leb_le, IH. split.
  - intros [H0 H] [|i] r' p' Hr Hp; simpl in Hr, Hp.
    + by injection Hr as <-; injection Hp as <-.
    + by apply (H i).
  - intros H. split; [by apply (H 0%nat)|]. intros i r' p'. apply (H (S i)).
Qed.

(** On distances that an [int] holds, the decision of the code is the match
    within the tolerance. *)
Lemma remove_match_is_match_within (poly_keep poly_rem : Path) (same_distance : Z) :
  poly_keep ≠ [] →
  (length poly_rem = length poly_keep → distances_fit poly_keep poly_rem) →
  same_distance * same_distance < 2 ^ 31 →
  Polygons.remove_match poly_keep poly_rem same_distance =
    Some (match_within same_distance poly_keep poly_rem).
Proof.
  intros Hne Hfit Hsd. destruct poly_keep as [|keep0 keep_rest]; [done|].
  unfold Polygons.remove_match, match_within.
  remember (keep0 :: keep_rest) as poly_keep eqn:Hk.
  destruct (Nat.eqb_spec (length poly_rem) (length poly_keep)) as [Hlen|Hlen]; [|done].
  specialize (Hfit Hlen).
  assert (Hpos : (0 < length poly_rem)%nat) by (rewrite Hlen, Hk; simpl; lia).
  replace (length poly_rem =? 0)%nat with false by (symmetry; apply Nat.eqb_neq; lia).
  cbn [negb orb andb].
  assert (Hk0 : poly_keep !! 0%nat = Some keep0) by (by rewrite Hk).
  rewrite Hk0. cbn [mbind option_bind].
  assert (Hrem : poly_rem ≠ []) by (intros ->; simpl in Hpos; lia).
  destruct (remove_closest_loop_first keep0 poly_rem Hrem) as (c & r & Hloop & Hfc).
  { intros q Hq. apply Hfit; [done|]. rewrite Hk. left. }
  destruct (first_argmin_first_closest poly_rem keep0 Hrem) as (r' & Hfc').
  destruct (first_closest_unique _ _ _ _ _ _ Hfc' Hfc) as [Hc ->].
  rewrite Hc, Hloop. destruct Hfc as (Hr & _). rewrite Hr.
  rewrite mul32_small by done.
  rewrite Z.gtb_ltb. destruct (Z.ltb_spec (same_distance * same_distance) (dist2 r keep0))
    as [Hfar|Hnear].
  - by replace (dist2 r keep0 <=? same_distance * same_distance) with false
      by (symmetry; apply Z.leb_gt; lia).
  - replace (dist2 r keep0 <=? same_distance * same_distance) with true
      by (symmetry; apply Z.leb_le; lia).
    cbn [andb].
    destruct (remove_compare_loop_total (length poly_rem) poly_rem poly_keep c
                same_distance 0 Hpos ltac:(lia)) as [b Hb].
    pose proof (remove_compare_loop_spec poly_rem poly_keep c same_distance
                  (length poly_rem) Hpos Hlen Hfit Hsd 0%nat ltac:(lia)) as Hspec.
    rewrite Hb in *. f_equal. apply eq_true_iff_eq.
    rewrite all_within_spec. split.
    + intros ->. intros i x y. apply Hspec; [done|lia].
    + intros H. destruct b; [done|].
      assert (Some false = Some true) as [=]. apply Hspec. intros i x y _. apply H.
Qed.

Lemma existsb_ext_in {A} (f g : A → bool) (l : list A) :
  (∀ x, x ∈ l → f x = g x) → existsb f l = existsb g l.
Proof.
  induction l as [|x l IH]; intros H; [done|]. simpl.
  rewrite (H x) by left. rewrite IH; [done|]. intros y Hy. apply H. by right.
Qed.

Lemma filter_ext_elem_of {A} (f g : A → bool) (l : list A) :
  (∀ x, x ∈ l → f x = g x) → List.filter f l = List.filter g l.
Proof.
  induction l as [|x l IH]; intros H; [done|]. simpl.
  rewrite (H x) by left. rewrite IH; [done|]. intros y Hy. apply H. by right.
Qed.

(** C6 (as amended). [remove] does not change the shape it is called on: it
    returns a new shape.  When the squared distances between loops of the
    same vertex count and the square of the tolerance fit an [int], the
    non-empty loops of the shape returned are exactly the non-empty loops of
    the original that have no match within the tolerance in
    [to_be_removed], in their order.  The call always returns. *)
Theorem C6_remove_returns_new_shape (polygons to_be_removed : Paths) (same_distance : Z) :
  (∀ poly_keep poly_rem, poly_keep ∈ polygons → poly_rem ∈ to_be_removed →
     length poly_rem = length poly_keep → distances_fit poly_keep poly_rem) →
  same_distance * same_distance < 2 ^ 31 →
  ∃ result,
    Polygons.remove polygons to_be_removed same_distance = Some (polygons, result) ∧
    List.filter nonempty result =
      List.filter (λ poly_keep, nonempty poly_keep &&
                                negb (existsb (match_within same_distance poly_keep)
                                              to_be_removed))
                  polygons.
Proof.
  intros Hfit Hsd.
  unfold Polygons.remove. rewrite remove_loop_spec. cbn [mbind option_bind app].
  eexists. split; [reflexivity|].
  rewrite filter_filter_comm. apply filter_ext_elem_of. intros poly_keep Hkeep.
  destruct (nonempty poly_keep) eqn:Hn; cbn [andb]; [|done].
  f_equal. apply existsb_ext_in. intros poly_rem Hrem.
  unfold code_match. rewrite remove_match_is_match_within; [done| |auto|done].
  intros ->. discriminate.
Qed.

(** C6 at the squares of side 10 and 4 and an empty loop, with the square of
    side 10 started one vertex later to be removed at tolerance 0: the
    square of side 4 is the only non-empty loop returned. *)
Lemma C6_remove_returns_new_shape_witness :
  ∃ result,
    Polygons.remove [square10; []; square4] [rotate 1 square10] 0 =
      Some ([square10; []; square4], result) ∧
    List.filter nonempty result = [square4].
Proof.
  destruct (C6_remove_returns_new_shape [square10; []; square4] [rotate 1 square10] 0)
    as (result & Hrun & Hres).
  - intros k r Hk Hr.
    repeat (apply elem_of_cons in Hk as [-> | Hk]);
      try (by apply elem_of_nil in Hk);
      repeat (apply elem_of_cons in Hr as [-> | Hr]);
      try (by apply elem_of_nil in Hr); intros _;
      eval_rotate; unfold square10, square4.
    + intros a b Ha Hb.
      repeat (apply elem_of_cons in Ha as [-> | Ha]);
        try (by apply elem_of_nil in Ha);
        repeat (apply elem_of_cons in Hb as [-> | Hb]);
        try (by apply elem_of_nil in Hb); vm_compute; reflexivity.
    + intros a b Ha Hb. by apply elem_of_nil in Hb.
    + intros a b Ha Hb.
      repeat (apply elem_of_cons in Ha as [-> | Ha]);
        try (by apply elem_of_nil in Ha);
        repeat (apply elem_of_cons in Hb as [-> | Hb]);
        try (by apply elem_of_nil in Hb); vm_compute; reflexivity.
  - vm_compute. reflexivity.
  - exists result. split; [exact Hrun|]. rewrite Hres. vm_compute. reflexivity.
Defined.

(** C6, the claim as stated, fails: after removing the square from a shape
    that holds only that square, the shape still holds it, although the
    square matches within tolerance 0; only the shape returned is empty. *)
Lemma C6_remove_self_unchanged :
  Polygons.remove [square10] [square10] 0 = Some ([square10], []) ∧
  match_within 0 square10 square10 = true ∧
  Polygons.remove_match square10 square10 0 = Some true.
Proof. repeat split; vm_compute; reflexivity. Qed.

(** C7 (as amended). For a non-empty loop and a candidate of the same
    vertex count whose squared distances and tolerance fit an [int]: let [k]
    be the index of the first vertex of the candidate at the least squared
    distance from vertex 0 of the loop.  The candidate matches exactly when
    that least distance does not exceed [same_distance]² and, after the
    cyclic shift by [k], every vertex is within squared distance
    [same_distance]² of the corresponding vertex of the loop; and one pair
    beyond the tolerance under that shift removes the match. *)
Theorem C7_remove_match_rotation (poly_keep poly_rem : Path) (same_distance : Z) :
  poly_keep ≠ [] → length poly_rem = length poly_keep →
  distances_fit poly_keep poly_rem → same_distance * same_distance < 2 ^ 31 →
  ∃ keep0 k r,
    poly_keep !! 0%nat = Some keep0 ∧ first_closest poly_rem keep0 k r ∧
    (Polygons.remove_match poly_keep poly_rem same_distance = Some true ↔
       dist2 r keep0 ≤ same_distance * same_distance ∧
       Forall2 (λ pr pk, dist2 pr pk ≤ same_distance * same_distance)
               (rotate k poly_rem) poly_keep) ∧
    (∀ i pr pk, rotate k poly_rem !! i = Some pr → poly_keep !! i = Some pk →
                same_distance * same_distance < dist2 pr pk →
                Polygons.remove_match poly_keep poly_rem same_distance = Some false).
Proof.
  intros Hne Hlen Hfit Hsd.
  destruct poly_keep as [|keep0 keep_rest] eqn:Hk; [done|]. rewrite <- Hk in *.
  assert (Hk0 : poly_keep !! 0%nat = Some keep0) by (by rewrite Hk).
  assert (Hpos : (0 < length poly_rem)%nat) by (rewrite Hlen, Hk; simpl; lia).
  destruct (remove_closest_loop_first keep0 poly_rem) as (k & r & Hloop & Hfc).
  { intros ->. simpl in Hpos. lia. }
  { intros q Hq. apply Hfit; [done|]. rewrite Hk. left. }
  exists keep0, k, r. split; [done|]. split; [done|].
  assert (Hiff : Polygons.remove_match poly_keep poly_rem same_distance = Some true ↔
       dist2 r keep0 ≤ same_distance * same_distance ∧
       Forall2 (λ pr pk, dist2 pr pk ≤ same_distance * same_distance)
               (rotate k poly_rem) poly_keep).
  { unfold Polygons.remove_match.
    replace (length poly_rem =? length poly_keep)%nat with true
      by (symmetry; by apply Nat.eqb_eq).
    replace (length poly_rem =? 0)%nat with false
      by (symmetry; apply Nat.eqb_neq; lia).
    cbn [negb orb]. rewrite Hk0. cbn [mbind option_bind]. rewrite Hloop.
    rewrite mul32_small by done.
    destruct (Z.gtb_spec (dist2 r keep0) (same_distance * same_distance)) as [Hgt|Hle].
    - split; [discriminate|]. intros [H _]. lia.
    - rewrite (remove_compare_loop_spec poly_rem poly_keep k same_distance
                 (length poly_rem) Hpos Hlen Hfit Hsd 0%nat) by lia.
      rewrite Forall2_same_length_lookup, length_rotate. split.
      + intros H. split; [done|]. split; [done|].
        intros i x y. apply H. lia.
      + intros (_ & _ & H) i x y _. apply H. }
  split; [exact Hiff|].
  intros i pr pk Hpr Hpk Hfar.
  destruct (remove_match_total poly_keep poly_rem same_distance) as [[|] Hb]; [|done].
  apply Hiff in Hb as [_ Hall].
  pose proof (Forall2_lookup_lr _ _ _ _ _ _ Hall Hpr Hpk) as Hnear.
  simpl in Hnear. lia.
Qed.

Ltac solve_distances_fit :=
  let r := fresh "r" in let p := fresh "p" in
  let Hr := fresh "Hr" in let Hp := fresh "Hp" in
  intros r p Hr Hp;
  repeat (apply elem_of_cons in Hr as [-> | Hr]);
  try (by apply elem_of_nil in Hr);
  repeat (apply elem_of_cons in Hp as [-> | Hp]);
  try (by apply elem_of_nil in Hp);
  vm_compute; reflexivity.

(** C7 at the square and the same square started one vertex later, with
    tolerance 0: the shift found is 3 and the candidate matches. *)
Lemma C7_remove_match_rotation_witness :
  first_closest (rotate 1 square10) (mkPoint 0 0) 3 (mkPoint 0 0) ∧
  Polygons.remove_match square10 (rotate 1 square10) 0 = Some true.
Proof.
  assert (Hne : square10 ≠ []) by discriminate.
  assert (Hlen : length (rotate 1 square10) = length square10) by reflexivity.
  assert (Hfit : distances_fit square10 (rotate 1 square10))
    by (eval_rotate; unfold square10; solve_distances_fit).
  assert (Hsd : 0 * 0 < 2 ^ 31) by (vm_compute; reflexivity).
  destruct (C7_remove_match_rotation square10 (rotate 1 square10) 0 Hne Hlen Hfit Hsd)
    as (keep0 & k & r & Hk0 & Hfc & Hiff & _).
  injection Hk0 as <-.
  assert (Hfc' : first_closest (rotate 1 square10) (mkPoint 0 0) 3 (mkPoint 0 0)).
  { split; [reflexivity|split].
    - intros j q _. apply dist2_nonneg.
    - intros [|[|[|j]]] q Hj Hq; try lia; injection Hq as <-; vm_compute; reflexivity. }
  destruct (first_closest_unique _ _ _ _ _ _ Hfc Hfc') as [-> ->].
  split; [exact Hfc'|].
  apply Hiff. split; [vm_compute; discriminate|].
  eval_rotate. unfold square10.
  repeat (apply List.Forall2_cons; [vm_compute; discriminate|]). apply List.Forall2_nil.
Defined.

(** C7, the claim as stated, fails: a candidate that is a cyclic rotation of
    a loop with every vertex within the tolerance is not always matched.
    With tolerance 3 the candidate [near_square4], shifted by 3, is within
    squared distance 9 of [square4] vertex by vertex, but its vertex closest
    to vertex 0 of the square is another one; and with tolerance 0 a loop
    that visits (0,0) twice is not matched by its own rotation by 2. *)
Lemma C7_rotation_not_detected :
  (Forall2 (λ pr pk, dist2 pr pk ≤ 3 * 3) (rotate 3 near_square4) square4 ∧
   Polygons.remove_match square4 near_square4 3 = Some false) ∧
  (rotate 2 (rotate 2 twice_origin) = twice_origin ∧
   Polygons.remove_match twice_origin (rotate 2 twice_origin) 0 = Some false).
Proof.
  split; (split; [|vm_compute; reflexivity]).
  - eval_rotate. unfold square4.
    repeat (apply List.Forall2_cons; [vm_compute; discriminate|]). apply List.Forall2_nil.
  - reflexivity.
Qed.

(** ** [removeDegenerateVerts] *)

Lemma removeDegenerateVerts_loop_more_than_2 vSize_wrap vSize (rest : Paths) :
  ∀ ret ret',
    Forall (λ result : Path, (2 < length result)%nat) ret →
    Polygons.removeDegenerateVerts_loop vSize_wrap vSize rest ret = Some ret' →
    Forall (λ result : Path, (2 < length result)%nat) ret'.
Proof.
  induction rest as [|poly rest IH]; intros ret ret' Hret Hrun.
  - injection Hrun as <-. exact Hret.
  - cbn [Polygons.removeDegenerateVerts_loop] in Hrun.
    destruct (Polygons.removeDegenerateVerts_for _ _ _ _ _ _) as [result|]; [|discriminate].
    cbn [mbind option_bind] in Hrun. apply IH in Hrun; [exact Hrun|].
    destruct (Nat.ltb_spec 2 (length result)); [|exact Hret].
    apply Forall_app. split; [exact Hret|]. by constructor.
Qed.

(** Every loop of the shape that [removeDegenerateVerts] returns has more
    than two points. *)
Lemma removeDegenerateVerts_more_than_2 vSize_wrap vSize (polygons ret : Paths) :
  Polygons.removeDegenerateVerts vSize_wrap vSize polygons = Some ret →
  Forall (λ result : Path, (2 < length result)%nat) ret.
Proof.
  apply removeDegenerateVerts_loop_more_than_2. constructor.
Qed.

(** C8. Evaluation of [removeDegenerateVerts] on the loop [hook], whose last
    vertex (12,0) lies on the line through (5,0) and the first vertex
    (10,0), beyond it: (12,0) is dropped, being anti-parallel between (5,0)
    and (10,0), and the loop returned is (10,0),(0,0),(0,10),(5,10),(5,0).
    Its vertex (10,0) now lies between (5,0) and (0,0) with anti-parallel
    edges, and is in the result: the first emitted vertex is not tested
    again after the drop.  A second call on the result drops it.  This holds
    with the products of the lengths taken as [int] and as [int64_t]. *)
Theorem C8_removeDegenerateVerts_keeps_antiparallel_vertex :
  Polygons.removeDegenerateVerts wrap32 IntPoint.vSize [hook] = Some [hook_cleaned] ∧
  Polygons.removeDegenerateVerts wrap64 IntPoint.vSize [hook] = Some [hook_cleaned] ∧
  hook_cleaned !! 4%nat = Some (mkPoint 5 0) ∧
  hook_cleaned !! 0%nat = Some (mkPoint 10 0) ∧
  hook_cleaned !! 1%nat = Some (mkPoint 0 0) ∧
  Polygons.isDegenerate wrap32 IntPoint.vSize (mkPoint 5 0) (mkPoint 10 0) (mkPoint 0 0)
    = true ∧
  Polygons.removeDegenerateVerts wrap32 IntPoint.vSize [hook_cleaned] =
    Some [[mkPoint 0 0; mkPoint 0 10; mkPoint 5 10; mkPoint 5 0]].
Proof. repeat split; vm_compute; reflexivity. Qed.

(** ** [simplify] *)

Lemma simplify_loop_length vSizeMM (allowed : Z) (n : nat) :
  ∀ thiss poly_idx poly thiss' poly',
    PolygonRef.simplify_loop vSizeMM n thiss allowed poly_idx poly = Some (thiss', poly') →
    length thiss' = length thiss ∧ (length poly ≤ length poly')%nat.
Proof.
  induction n as [|n IH]; intros thiss poly_idx poly thiss' poly' Hrun.
  - injection Hrun as <- <-. done.
  - cbn [PolygonRef.simplify_loop] in Hrun.
    destruct (thiss !! poly_idx) as [cur|]; [|discriminate].
    destruct (thiss !! 0%nat) as [last|]; [|discriminate].
    cbn [mbind option_bind] in Hrun.
    destruct (_ <? allowed); [by apply IH in Hrun|].
    destruct (thiss !! _) as [next|]; [|discriminate].
    cbn [mbind option_bind] in Hrun.
    destruct (PolygonRef.simplify_divisor _ _ _ _) as [divisor|]; [|discriminate].
    cbn [mbind option_bind] in Hrun.
    destruct (divisor =? 0); [discriminate|].
    destruct (_ <? allowed); [by apply IH in Hrun|].
    apply IH in Hrun as [Hlen Hpoly].
    rewrite length_insert in Hlen. rewrite length_app in Hpoly. simpl in Hpoly.
    split; [done|lia].
Qed.

(** A call of [simplify] that returns leaves at least three points in an
    empty result when the loop has at least three, and copies a loop of
    fewer than four points. *)
Lemma simplify_at_least_3 vSizeMM (thiss : Path) (allowed : Z) (thiss' poly' : Path) :
  PolygonRef.simplify vSizeMM thiss allowed [] = Some (thiss', poly') →
  (3 ≤ length thiss)%nat → (3 ≤ length poly')%nat.
Proof.
  unfold PolygonRef.simplify, PolygonRef.size. intros Hrun Hlen.
  destruct (Z.ltb_spec (Z.of_nat (length thiss)) 4) as [Hlt|Hge].
  - injection Hrun as <- <-. done.
  - destruct (thiss !! 0%nat) as [last|]; [|discriminate].
    cbn [mbind option_bind] in Hrun.
    destruct (PolygonRef.simplify_loop _ _ _ _ _ _) as [[t q]|] eqn:Hloop; [|discriminate].
    cbn [mbind option_bind fst snd] in Hrun.
    apply simplify_loop_length in Hloop as [Ht Hq].
    destruct (Nat.ltb_spec (length q) 3) as [Hshort|Hlong];
      injection Hrun as <- <-; lia.
Qed.

Lemma simplify_short_copied vSizeMM (thiss : Path) (allowed : Z) :
  (length thiss < 4)%nat →
  PolygonRef.simplify vSizeMM thiss allowed [] = Some (thiss, thiss).
Proof.
  intros Hlen. unfold PolygonRef.simplify, PolygonRef.size.
  by replace (Z.of_nat (length thiss) <? 4) with true by (symmetry; apply Z.ltb_lt; lia).
Qed.

(** C3. Evaluation of [simplify] on the square of side 105 with the squared
    error distance 10000: the walk emits (0,0) and (0,105) only, and the
    assignment through [last] has overwritten the first point of the loop
    by (0,105); the copy made for the short result is the copy of the loop
    as overwritten, without the vertex (0,0). *)
Theorem C3_simplify_copies_overwritten_loop :
  PolygonRef.simplify IntPoint.vSizeMM (rect 105 105) 10000 [] =
    Some ([mkPoint 0 105; mkPoint 105 0; mkPoint 105 105; mkPoint 0 105],
          [mkPoint 0 105; mkPoint 105 0; mkPoint 105 105; mkPoint 0 105]).
Proof. vm_compute. reflexivity. Qed.

(** On a loop that repeats its first point twice, with the squared error
    distance 0, the divisor of [a2] is 0 and the call has no value. *)
Example simplify_division_by_zero :
  PolygonRef.simplify IntPoint.vSizeMM
    [mkPoint 0 0; mkPoint 0 0; mkPoint 0 0; mkPoint 1000 0; mkPoint 1000 1000;
     mkPoint 0 1000] 0 [] = None.
Proof. vm_compute. reflexivity. Qed.

(** * Further properties of the kernel *)

(** ** [min] and [max] of a loop and of a shape *)

Lemma PolygonRef_min_loop_le_init (rest : Path) :
  ∀ ret, X (PolygonRef.min_loop rest ret) ≤ X ret ∧ Y (PolygonRef.min_loop rest ret) ≤ Y ret.
Proof.
  induction rest as [|p rest IH]; intros ret; simpl; [lia|].
  specialize (IH (mkPoint (Z.min (X ret) (X p)) (Z.min (Y ret) (Y p)))). simpl in IH. lia.
Qed.

Lemma PolygonRef_max_loop_ge_init (rest : Path) :
  ∀ ret, X ret ≤ X (PolygonRef.max_loop rest ret) ∧ Y ret ≤ Y (PolygonRef.max_loop rest ret).
Proof.
  induction rest as [|p rest IH]; intros ret; simpl; [lia|].
  specialize (IH (mkPoint (Z.max (X ret) (X p)) (Z.max (Y ret) (Y p)))). simpl in IH. lia.
Qed.

Lemma PolygonRef_min_loop_le (rest : Path) (q : Point) :
  q ∈ rest →
  ∀ ret, X (PolygonRef.min_loop rest ret) ≤ X q ∧ Y (PolygonRef.min_loop rest ret) ≤ Y q.
Proof.
  induction rest as [|p rest IH]; intros Hq ret; [by apply elem_of_nil in Hq|].
  apply elem_of_cons in Hq as [->|Hq]; simpl.
  - pose proof (PolygonRef_min_loop_le_init rest
                  (mkPoint (Z.min (X ret) (X p)) (Z.min (Y ret) (Y p)))) as H.
    simpl in H. lia.
  - by apply IH.
Qed.

Lemma PolygonRef_max_loop_ge (rest : Path) (q : Point) :
  q ∈ rest →
  ∀ ret, X q ≤ X (PolygonRef.max_loop rest ret) ∧ Y q ≤ Y (PolygonRef.max_loop rest ret).
Proof.
  induction rest as [|p rest IH]; intros Hq ret; [by apply elem_of_nil in Hq|].
  apply elem_of_cons in Hq as [->|Hq]; simpl.
  - pose proof (PolygonRef_max_loop_ge_init rest
                  (mkPoint (Z.max (X ret) (X p)) (Z.max (Y ret) (Y p)))) as H.
    simpl in H. lia.
  - by apply IH.
Qed.

(** X1. The corners returned by [min] and [max] bound every point of the
    loop, coordinate by coordinate, whatever the sentinels are. *)
Theorem X1_PolygonRef_min_max_bound (POINT_MIN POINT_MAX : Z) (thiss : Path) (q : Point) :
  q ∈ thiss →
  X (PolygonRef.min POINT_MAX thiss) ≤ X q ≤ X (PolygonRef.max POINT_MIN thiss) ∧
  Y (PolygonRef.min POINT_MAX thiss) ≤ Y q ≤ Y (PolygonRef.max POINT_MIN thiss).
Proof.
  intros Hq. unfold PolygonRef.min, PolygonRef.max.
  pose proof (PolygonRef_min_loop_le thiss q Hq (mkPoint POINT_MAX POINT_MAX)).
  pose proof (PolygonRef_max_loop_ge thiss q Hq (mkPoint POINT_MIN POINT_MIN)). lia.
Qed.

Lemma X1_PolygonRef_min_max_bound_witness :
  X (PolygonRef.min 1000 square10) ≤ 10 ≤ X (PolygonRef.max (-1000) square10) ∧
  Y (PolygonRef.min 1000 square10) ≤ 0 ≤ Y (PolygonRef.max (-1000) square10).
Proof.
  apply (X1_PolygonRef_min_max_bound (-1000) 1000 square10 (mkPoint 10 0)).
  unfold square10. right. left.
Defined.

Lemma PolygonRef_min_loop_attained (rest : Path) :
  ∀ ret,
    (X (PolygonRef.min_loop rest ret) = X ret ∨
     ∃ q, q ∈ rest ∧ X (PolygonRef.min_loop rest ret) = X q) ∧
    (Y (PolygonRef.min_loop rest ret) = Y ret ∨
     ∃ q, q ∈ rest ∧ Y (PolygonRef.min_loop rest ret) = Y q).
Proof.
  induction rest as [|p rest IH]; intros ret; cbn [PolygonRef.min_loop PolygonRef.max_loop]; [by split; left|].
  destruct (IH (mkPoint (Z.min (X ret) (X p)) (Z.min (Y ret) (Y p)))) as [HX HY].
  cbn [X Y] in HX, HY. split.
  - destruct HX as [HX|(q & Hq & HX)].
    + destruct (Z.min_spec (X ret) (X p)) as [[_ E]|[_ E]].
      * left. by rewrite HX.
      * right. exists p. split; [left|by rewrite HX].
    + right. exists q. split; [by right|done].
  - destruct HY as [HY|(q & Hq & HY)].
    + destruct (Z.min_spec (Y ret) (Y p)) as [[_ E]|[_ E]].
      * left. by rewrite HY.
      * right. exists p. split; [left|by rewrite HY].
    + right. exists q. split; [by right|done].
Qed.

Lemma PolygonRef_max_loop_attained (rest : Path) :
  ∀ ret,
    (X (PolygonRef.max_loop rest ret) = X ret ∨
     ∃ q, q ∈ rest ∧ X (PolygonRef.max_loop rest ret) = X q) ∧
    (Y (PolygonRef.max_loop rest ret) = Y ret ∨
     ∃ q, q ∈ rest ∧ Y (PolygonRef.max_loop rest ret) = Y q).
Proof.
  induction rest as [|p rest IH]; intros ret; cbn [PolygonRef.min_loop PolygonRef.max_loop]; [by split; left|].
  destruct (IH (mkPoint (Z.max (X ret) (X p)) (Z.max (Y ret) (Y p)))) as [HX HY].
  cbn [X Y] in HX, HY. split.
  - destruct HX as [HX|(q & Hq & HX)].
    + destruct (Z.max_spec (X ret) (X p)) as [[_ E]|[_ E]].
      * right. exists p. split; [left|by rewrite HX].
      * left. by rewrite HX.
    + right. exists q. split; [by right|done].
  - destruct HY as [HY|(q & Hq & HY)].
    + destruct (Z.max_spec (Y ret) (Y p)) as [[_ E]|[_ E]].
      * right. exists p. split; [left|by rewrite HY].
      * left. by rewrite HY.
    + right. exists q. split; [by right|done].
Qed.

(** X2. On a loop with a point whose coordinates lie between the sentinels,
    each coordinate of [min] and of [max] is the coordinate of a point of the
    loop; on the empty loop they are the sentinels. *)
Theorem X2_PolygonRef_min_max_attained (POINT_MIN POINT_MAX : Z) (thiss : Path) :
  thiss ≠ [] →
  (∀ q, q ∈ thiss → POINT_MIN ≤ X q ≤ POINT_MAX ∧ POINT_MIN ≤ Y q ≤ POINT_MAX) →
  (∃ q, q ∈ thiss ∧ X (PolygonRef.min POINT_MAX thiss) = X q) ∧
  (∃ q, q ∈ thiss ∧ Y (PolygonRef.min POINT_MAX thiss) = Y q) ∧
  (∃ q, q ∈ thiss ∧ X (PolygonRef.max POINT_MIN thiss) = X q) ∧
  (∃ q, q ∈ thiss ∧ Y (PolygonRef.max POINT_MIN thiss) = Y q) ∧
  PolygonRef.min POINT_MAX [] = mkPoint POINT_MAX POINT_MAX ∧
  PolygonRef.max POINT_MIN [] = mkPoint POINT_MIN POINT_MIN.
Proof.
  intros Hne Hin. destruct thiss as [|p0 rest]; [done|].
  assert (Hp0 : p0 ∈ p0 :: rest) by left.
  pose proof (Hin p0 Hp0) as Hb.
  pose proof (Hbounds := λ q Hq, conj (PolygonRef_min_loop_le (p0 :: rest) q Hq
                                           (mkPoint POINT_MAX POINT_MAX))
                                        (PolygonRef_max_loop_ge (p0 :: rest) q Hq
                                           (mkPoint POINT_MIN POINT_MIN))).
  destruct (Hbounds p0 Hp0) as [Hmin Hmax].
  destruct (PolygonRef_min_loop_attained (p0 :: rest) (mkPoint POINT_MAX POINT_MAX))
    as [HminX HminY].
  destruct (PolygonRef_max_loop_attained (p0 :: rest) (mkPoint POINT_MIN POINT_MIN))
    as [HmaxX HmaxY].
  unfold PolygonRef.min, PolygonRef.max. cbn [X Y] in *.
  repeat split; try reflexivity.
  - destruct HminX as [E|?]; [|done]. exists p0. split; [done|]. lia.
  - destruct HminY as [E|?]; [|done]. exists p0. split; [done|]. lia.
  - destruct HmaxX as [E|?]; [|done]. exists p0. split; [done|]. lia.
  - destruct HmaxY as [E|?]; [|done]. exists p0. split; [done|]. lia.
Qed.

Lemma X2_PolygonRef_min_max_attained_witness :
  (∃ q, q ∈ square10 ∧ X (PolygonRef.min 1000 square10) = X q) ∧
  (∃ q, q ∈ square10 ∧ X (PolygonRef.max (-1000) square10) = X q).
Proof.
  assert (Hin : ∀ q, q ∈ square10 → -1000 ≤ X q ≤ 1000 ∧ -1000 ≤ Y q ≤ 1000).
  { intros q Hq. unfold square10 in Hq.
    repeat (apply elem_of_cons in Hq as [->|Hq]; [simpl; lia|]).
    by apply elem_of_nil in Hq. }
  destruct (X2_PolygonRef_min_max_attained (-1000) 1000 square10 ltac:(discriminate) Hin)
    as (H1 & _ & H3 & _).
  exact (conj H1 H3).
Defined.

Lemma elem_of_concat_2 (polygons : Paths) (poly : Path) (q : Point) :
  poly ∈ polygons → q ∈ poly → q ∈ concat polygons.
Proof.
  intros Hpoly Hq. apply list_elem_of_In, in_concat. exists poly.
  split; by apply list_elem_of_In.
Qed.

Lemma PolygonRef_min_loop_app (l1 l2 : Path) (ret : Point) :
  PolygonRef.min_loop (l1 ++ l2) ret = PolygonRef.min_loop l2 (PolygonRef.min_loop l1 ret).
Proof. revert ret. induction l1 as [|p l1 IH]; intros ret; simpl; [done|apply IH]. Qed.

Lemma PolygonRef_max_loop_app (l1 l2 : Path) (ret : Point) :
  PolygonRef.max_loop (l1 ++ l2) ret = PolygonRef.max_loop l2 (PolygonRef.max_loop l1 ret).
Proof. revert ret. induction l1 as [|p l1 IH]; intros ret; simpl; [done|apply IH]. Qed.

Lemma Polygons_min_loop_concat (polygons : Paths) (ret : Point) :
  Polygons.min_loop polygons ret = PolygonRef.min_loop (concat polygons) ret.
Proof.
  revert ret. induction polygons as [|poly polygons IH]; intros ret; simpl; [done|].
  by rewrite PolygonRef_min_loop_app, IH.
Qed.

Lemma Polygons_max_loop_concat (polygons : Paths) (ret : Point) :
  Polygons.max_loop polygons ret = PolygonRef.max_loop (concat polygons) ret.
Proof.
  revert ret. induction polygons as [|poly polygons IH]; intros ret; simpl; [done|].
  by rewrite PolygonRef_max_loop_app, IH.
Qed.

(** X3. [min] and [max] of a shape are [min] and [max] of the loop made of
    all its points: empty loops do not count, and the corners bound every
    point of every loop. *)
Theorem X3_Polygons_min_max_concat (POINT_MIN POINT_MAX : Z) (polygons : Paths) :
  Polygons.min POINT_MAX polygons = PolygonRef.min POINT_MAX (concat polygons) ∧
  Polygons.max POINT_MIN polygons = PolygonRef.max POINT_MIN (concat polygons) ∧
  (∀ poly q, poly ∈ polygons → q ∈ poly →
     X (Polygons.min POINT_MAX polygons) ≤ X q ≤ X (Polygons.max POINT_MIN polygons) ∧
     Y (Polygons.min POINT_MAX polygons) ≤ Y q ≤ Y (Polygons.max POINT_MIN polygons)).
Proof.
  unfold Polygons.min, Polygons.max, PolygonRef.min, PolygonRef.max.
  rewrite Polygons_min_loop_concat, Polygons_max_loop_concat.
  split; [done|split; [done|]]. intros poly q Hpoly Hq.
  assert (Hin : q ∈ concat polygons) by (by eapply elem_of_concat_2).
  pose proof (PolygonRef_min_loop_le _ q Hin (mkPoint POINT_MAX POINT_MAX)).
  pose proof (PolygonRef_max_loop_ge _ q Hin (mkPoint POINT_MIN POINT_MIN)). lia.
Qed.

Lemma X3_Polygons_min_max_concat_witness :
  X (Polygons.min 1000 [[]; square10; hole46]) ≤ 4 ≤
    X (Polygons.max (-1000) [[]; square10; hole46]).
Proof.
  destruct (X3_Polygons_min_max_concat (-1000) 1000 [[]; square10; hole46])
    as (_ & _ & H).
  apply (H hole46 (mkPoint 4 6)).
  - right. right. left.
  - unfold hole46. right. left.
Defined.

(** ** [AABB] *)

Lemma AABB_calculate_point_min_max (box : AABB.t) (p : Point) :
  AABB.calculate_point box p =
    AABB.mk (mkPoint (Z.min (X (AABB.min box)) (X p)) (Z.min (Y (AABB.min box)) (Y p)))
            (mkPoint (Z.max (X (AABB.max box)) (X p)) (Z.max (Y (AABB.max box)) (Y p))).
Proof.
  destruct box as [[x0 y0] [x1 y1]]. unfold AABB.calculate_point. cbn [AABB.min AABB.max X Y].
  destruct (Z.gtb_spec x0 (X p)); cbn [X Y];
    destruct (Z.gtb_spec y0 (Y p)); cbn [X Y];
    destruct (Z.ltb_spec x1 (X p)); cbn [X Y];
    destruct (Z.ltb_spec y1 (Y p)); cbn [X Y];
    f_equal; f_equal; lia.
Qed.

Lemma AABB_calculate_points_min_max (rest : Path) :
  ∀ mn mx, AABB.calculate_points rest (AABB.mk mn mx) =
           AABB.mk (PolygonRef.min_loop rest mn) (PolygonRef.max_loop rest mx).
Proof.
  induction rest as [|p rest IH]; intros mn mx; [done|].
  cbn [AABB.calculate_points PolygonRef.min_loop PolygonRef.max_loop].
  rewrite AABB_calculate_point_min_max. apply IH.
Qed.

Lemma AABB_calculate_min_max (POINT_MIN POINT_MAX : Z) (polys : Paths) :
  AABB.calculate POINT_MIN POINT_MAX polys =
    AABB.mk (Polygons.min POINT_MAX polys) (Polygons.max POINT_MIN polys).
Proof.
  unfold AABB.calculate, Polygons.min, Polygons.max.
  generalize (mkPoint POINT_MAX POINT_MAX) (mkPoint POINT_MIN POINT_MIN).
  induction polys as [|poly polys IH]; intros mn mx; [done|].
  cbn [AABB.calculate_loop Polygons.min_loop Polygons.max_loop].
  rewrite AABB_calculate_points_min_max. apply IH.
Qed.

(** X4. The box computed by [AABB::calculate], with its four tests and
    assignments, has the corners that [Polygons::min] and [Polygons::max]
    return for the same shape. *)
Theorem X4_AABB_calculate_is_min_max (POINT_MIN POINT_MAX : Z) (polys : Paths) :
  AABB.min (AABB.calculate POINT_MIN POINT_MAX polys) = Polygons.min POINT_MAX polys ∧
  AABB.max (AABB.calculate POINT_MIN POINT_MAX polys) = Polygons.max POINT_MIN polys.
Proof. by rewrite AABB_calculate_min_max. Qed.

(** X5. [hit] is symmetric: whether two boxes hit does not depend on which
    of them is asked. *)
Theorem X5_AABB_hit_symmetric (box other : AABB.t) :
  AABB.hit box other = AABB.hit other box.
Proof.
  unfold AABB.hit.
  repeat match goal with
         | |- context [?a <? ?b] => destruct (Z.ltb_spec a b)
         | |- context [?a >? ?b] => destruct (Z.gtb_spec a b)
         end; try reflexivity; lia.
Qed.

(** X6. The boxes of two shapes that have a point in common hit: the test
    never rejects shapes that touch. *)
Theorem X6_AABB_hit_common_point (POINT_MIN POINT_MAX : Z) (polys1 polys2 : Paths)
    (poly1 poly2 : Path) (q : Point) :
  poly1 ∈ polys1 → q ∈ poly1 → poly2 ∈ polys2 → q ∈ poly2 →
  AABB.hit (AABB.calculate POINT_MIN POINT_MAX polys1)
           (AABB.calculate POINT_MIN POINT_MAX polys2) = true.
Proof.
  intros H1 Hq1 H2 Hq2. rewrite !AABB_calculate_min_max.
  assert (Hin1 : q ∈ concat polys1) by (by eapply elem_of_concat_2).
  assert (Hin2 : q ∈ concat polys2) by (by eapply elem_of_concat_2).
  unfold AABB.hit, Polygons.min, Polygons.max. cbn [AABB.min AABB.max].
  rewrite !Polygons_min_loop_concat, !Polygons_max_loop_concat.
  pose proof (PolygonRef_min_loop_le _ q Hin1 (mkPoint POINT_MAX POINT_MAX)).
  pose proof (PolygonRef_max_loop_ge _ q Hin1 (mkPoint POINT_MIN POINT_MIN)).
  pose proof (PolygonRef_min_loop_le _ q Hin2 (mkPoint POINT_MAX POINT_MAX)).
  pose proof (PolygonRef_max_loop_ge _ q Hin2 (mkPoint POINT_MIN POINT_MIN)).
  repeat match goal with
         | |- context [?a <? ?b] => destruct (Z.ltb_spec a b); [lia|]
         | |- context [?a >? ?b] => destruct (Z.gtb_spec a b); [lia|]
         end.
  reflexivity.
Qed.

Lemma X6_AABB_hit_common_point_witness :
  AABB.hit (AABB.calculate (-1000) 1000 [square10])
           (AABB.calculate (-1000) 1000 [[]; rect 10 20]) = true.
Proof.
  apply (X6_AABB_hit_common_point (-1000) 1000 [square10] [[]; rect 10 20]
           square10 (rect 10 20) (mkPoint 10 0)).
  - left.
  - unfold square10. right. left.
  - right. left.
  - unfold rect. right. left.
Defined.

(** X7. With [POINT_MIN < POINT_MAX], the box calculated from a shape
    without points, and a box that was never calculated, hit no box
    calculated from points whose X lies above [POINT_MIN], whichever of the
    two is asked. *)
Theorem X7_AABB_empty_box_hits_nothing (POINT_MIN POINT_MAX : Z) (polys1 polys2 : Paths) :
  POINT_MIN < POINT_MAX →
  concat polys1 = [] →
  (∀ poly q, poly ∈ polys2 → q ∈ poly → POINT_MIN < X q) →
  AABB.hit (AABB.calculate POINT_MIN POINT_MAX polys1)
           (AABB.calculate POINT_MIN POINT_MAX polys2) = false ∧
  AABB.hit (AABB.calculate POINT_MIN POINT_MAX polys2)
           (AABB.calculate POINT_MIN POINT_MAX polys1) = false ∧
  AABB.hit (AABB.init POINT_MIN) (AABB.calculate POINT_MIN POINT_MAX polys2) = false.
Proof.
  intros Hlt Hempty Habove. rewrite !AABB_calculate_min_max.
  unfold AABB.hit, AABB.init, Polygons.min, Polygons.max. cbn [AABB.min AABB.max].
  rewrite !Polygons_min_loop_concat, !Polygons_max_loop_concat, Hempty.
  cbn [PolygonRef.min_loop PolygonRef.max_loop X Y].
  assert (Hmin : POINT_MIN <
            X (PolygonRef.min_loop (concat polys2) (mkPoint POINT_MAX POINT_MAX))).
  { destruct (PolygonRef_min_loop_attained (concat polys2) (mkPoint POINT_MAX POINT_MAX))
      as [[E|(q & Hq & E)] _]; rewrite E; [done|].
    apply list_elem_of_In, in_concat in Hq as (poly & Hpoly & Hq).
    apply (Habove poly q); by apply list_elem_of_In. }
  replace (POINT_MIN <? X (PolygonRef.min_loop (concat polys2) (mkPoint POINT_MAX POINT_MAX)))
    with true by (symmetry; by apply Z.ltb_lt).
  split; [done|split; [|done]].
  destruct (_ <? POINT_MAX); [done|].
  by replace (X (PolygonRef.min_loop (concat polys2) (mkPoint POINT_MAX POINT_MAX)) >? POINT_MIN)
    with true by (symmetry; apply Z.gtb_lt; lia).
Qed.

Lemma X7_AABB_empty_box_hits_nothing_witness :
  AABB.hit (AABB.calculate (-1000) 1000 [[]; []]) (AABB.calculate (-1000) 1000 [square10])
    = false.
Proof.
  apply (X7_AABB_empty_box_hits_nothing (-1000) 1000 [[]; []] [square10]).
  - lia.
  - reflexivity.
  - intros poly q Hpoly Hq. apply elem_of_cons in Hpoly as [->|Hpoly].
    + unfold square10 in Hq.
      repeat (apply elem_of_cons in Hq as [->|Hq]; [simpl; lia|]).
      by apply elem_of_nil in Hq.
    + by apply elem_of_nil in Hpoly.
Defined.

(** ** More on [inside] *)

Lemma inside_loop_border (p : Point) (rest : Path) :
  ∀ p0 c,
    PolygonRef.inside_loop rest p0 p false c = PolygonRef.inside_loop rest p0 p true c ∨
    (PolygonRef.inside_loop rest p0 p false c = false ∧
     PolygonRef.inside_loop rest p0 p true c = true).
Proof.
  induction rest as [|p1 rest IH]; intros p0 c; [by left|].
  cbn [PolygonRef.inside_loop]. cbv zeta.
  repeat case_match; auto.
Qed.

(** X8. [border_result] decides the answer only for points on the border:
    a point that is inside with [border_result = false] is inside with any
    [border_result], and a point that is outside with [border_result = true]
    is outside with any. *)
Theorem X8_inside_border_result_monotone (thiss : Path) (p : Point) :
  (PolygonRef.inside thiss p false = true → ∀ b, PolygonRef.inside thiss p b = true) ∧
  (PolygonRef.inside thiss p true = false → ∀ b, PolygonRef.inside thiss p b = false).
Proof.
  unfold PolygonRef.inside. destruct (PolygonRef.size thiss <? 1).
  { split; [discriminate|done]. }
  destruct (PolygonRef.back thiss) as [p0|]; [|split; [discriminate|done]].
  destruct (inside_loop_border p thiss p0 0) as [E|[E1 E2]].
  - split; intros H [|]; congruence.
  - split; intros H; congruence.
Qed.

Lemma X8_inside_border_result_monotone_witness :
  PolygonRef.inside square10 (mkPoint 5 5) true = true.
Proof.
  apply (proj1 (X8_inside_border_result_monotone square10 (mkPoint 5 5))).
  vm_compute. reflexivity.
Defined.

Lemma inside_loop_right (p : Point) (b : bool) (rest : Path) :
  ∀ p0 c, X p0 < X p → (∀ q, q ∈ rest → X q < X p) →
    PolygonRef.inside_loop rest p0 p b c = (Z.rem c 2 =? 1).
Proof.
  induction rest as [|p1 rest IH]; intros p0 c Hp0 Hrest; [done|].
  cbn [PolygonRef.inside_loop].
  assert (Hp1 : X p1 < X p) by (apply Hrest; left).
  replace (Z.max (X p0) (X p1) >=? X p) with false
    by (symmetry; rewrite Z.geb_leb; apply Z.leb_gt; lia).
  apply IH; [done|]. intros q Hq. apply Hrest. by right.
Qed.

Lemma inside_loop_above (p : Point) (b : bool) (rest : Path) :
  ∀ p0 c, Y p0 < Y p → (∀ q, q ∈ rest → Y q < Y p) →
    PolygonRef.inside_loop rest p0 p b c = (Z.rem c 2 =? 1).
Proof.
  induction rest as [|p1 rest IH]; intros p0 c Hp0 Hrest; [done|].
  cbn [PolygonRef.inside_loop]. cbv zeta.
  assert (Hp1 : Y p1 < Y p) by (apply Hrest; left).
  assert (IH' : ∀ c, PolygonRef.inside_loop rest p1 p b c = (Z.rem c 2 =? 1)).
  { intros c'. apply IH; [done|]. intros q Hq. apply Hrest. by right. }
  replace (Y p0 >? Y p) with false by (symmetry; rewrite Z.gtb_ltb; apply Z.ltb_ge; lia).
  replace (Y p >=? Y p0) with true by (symmetry; rewrite Z.geb_leb; apply Z.leb_le; lia).
  replace (Y p <? Y p1) with false by (symmetry; apply Z.ltb_ge; lia).
  replace (Y p =? Y p1) with false by (symmetry; apply Z.eqb_neq; lia).
  rewrite andb_false_r. by repeat case_match.
Qed.

Lemma inside_loop_below (p : Point) (b : bool) (rest : Path) :
  ∀ p0 c, Y p < Y p0 → (∀ q, q ∈ rest → Y p < Y q) →
    PolygonRef.inside_loop rest p0 p b c = (Z.rem c 2 =? 1).
Proof.
  induction rest as [|p1 rest IH]; intros p0 c Hp0 Hrest; [done|].
  cbn [PolygonRef.inside_loop]. cbv zeta.
  assert (Hp1 : Y p < Y p1) by (apply Hrest; left).
  assert (IH' : ∀ c, PolygonRef.inside_loop rest p1 p b c = (Z.rem c 2 =? 1)).
  { intros c'. apply IH; [done|]. intros q Hq. apply Hrest. by right. }
  replace (Y p1 <=? Y p) with false by (symmetry; apply Z.leb_gt; lia).
  replace (Y p >=? Y p0) with false by (symmetry; rewrite Z.geb_leb; apply Z.leb_gt; lia).
  cbn [andb]. by repeat case_match.
Qed.

(** X9. A point to the right of, above or below the corners that [min] and
    [max] return for a loop is classified as outside the loop, whatever
    [border_result] is: rejecting by the bounding box on these three sides
    agrees with [inside]. *)
Theorem X9_inside_outside_bounds (POINT_MIN POINT_MAX : Z) (thiss : Path) (p : Point)
    (b : bool) :
  X (PolygonRef.max POINT_MIN thiss) < X p ∨
  Y (PolygonRef.max POINT_MIN thiss) < Y p ∨
  Y p < Y (PolygonRef.min POINT_MAX thiss) →
  PolygonRef.inside thiss p b = false.
Proof.
  intros Hout. unfold PolygonRef.inside. destruct (PolygonRef.size thiss <? 1); [done|].
  destruct (PolygonRef.back thiss) as [p0|] eqn:Hback; [|done].
  assert (Hp0 : p0 ∈ thiss).
  { unfold PolygonRef.back in Hback. rewrite last_lookup in Hback.
    by eapply list_elem_of_lookup_2. }
  assert (Hb : ∀ q, q ∈ thiss →
            X q ≤ X (PolygonRef.max POINT_MIN thiss) ∧
            Y (PolygonRef.min POINT_MAX thiss) ≤ Y q ≤ Y (PolygonRef.max POINT_MIN thiss)).
  { intros q Hq. unfold PolygonRef.min, PolygonRef.max.
    pose proof (PolygonRef_min_loop_le thiss q Hq (mkPoint POINT_MAX POINT_MAX)).
    pose proof (PolygonRef_max_loop_ge thiss q Hq (mkPoint POINT_MIN POINT_MIN)). lia. }
  destruct Hout as [H|[H|H]].
  - rewrite (inside_loop_right p b thiss p0 0);
      [done | apply Hb in Hp0; lia | intros q Hq; apply Hb in Hq; lia].
  - rewrite (inside_loop_above p b thiss p0 0);
      [done | apply Hb in Hp0; lia | intros q Hq; apply Hb in Hq; lia].
  - rewrite (inside_loop_below p b thiss p0 0);
      [done | apply Hb in Hp0; lia | intros q Hq; apply Hb in Hq; lia].
Qed.

Lemma X9_inside_outside_bounds_witness :
  PolygonRef.inside square10 (mkPoint 5 11) true = false.
Proof.
  apply (X9_inside_outside_bounds (-1000) 1000 square10 (mkPoint 5 11) true).
  right. left. vm_compute. reflexivity.
Defined.

(** ** [translate] *)

Lemma wrap64_add_idemp_l (a b : Z) : wrap64 (wrap64 a + b) = wrap64 (a + b).
Proof.
  unfold wrap64, wrap. f_equal.
  replace ((a + 2 ^ (64 - 1)) mod 2 ^ 64 - 2 ^ (64 - 1) + b + 2 ^ (64 - 1))
    with ((a + 2 ^ (64 - 1)) mod 2 ^ 64 + b) by lia.
  rewrite Zplus_mod_idemp_l. f_equal. lia.
Qed.

Lemma wrap64_add_idemp_r (a b : Z) : wrap64 (a + wrap64 b) = wrap64 (a + b).
Proof. rewrite (Z.add_comm a), wrap64_add_idemp_l. f_equal. lia. Qed.

Lemma wrap64_sub_idemp (a b : Z) : wrap64 (wrap64 a - wrap64 b) = wrap64 (a - b).
Proof.
  unfold Z.sub at 1. rewrite wrap64_add_idemp_l.
  unfold wrap64 at 1 3, wrap. f_equal.
  replace (a + - wrap64 b + 2 ^ (64 - 1)) with (a + 2 ^ (64 - 1) - wrap64 b) by lia.
  unfold wrap64, wrap.
  replace (a + 2 ^ (64 - 1) - ((b + 2 ^ (64 - 1)) mod 2 ^ 64 - 2 ^ (64 - 1)))
    with (a + 2 ^ (64 - 1) + 2 ^ (64 - 1) - (b + 2 ^ (64 - 1)) mod 2 ^ 64) by lia.
  rewrite Zminus_mod_idemp_r. f_equal. lia.
Qed.

Lemma psub_padd (a b d : Point) :
  IntPoint.psub (IntPoint.padd a d) (IntPoint.padd b d) = IntPoint.psub a b.
Proof.
  unfold IntPoint.psub, IntPoint.padd, sub64, add64. cbn [X Y].
  rewrite !wrap64_sub_idemp. f_equal; f_equal; lia.
Qed.

Lemma lookup_map {A B} (f : A → B) (l : list A) (i : nat) :
  map f l !! i = option_map f (l !! i).
Proof. revert i. induction l as [|x l IH]; intros [|i]; simpl; try done. Qed.

Lemma polygonLength_loop_translate vSize (d : Point) (rest : Path) :
  ∀ p0 acc,
    PolygonRef.polygonLength_loop vSize (PolygonRef.translate rest d) (IntPoint.padd p0 d) acc =
    PolygonRef.polygonLength_loop vSize rest p0 acc.
Proof.
  induction rest as [|p1 rest IH]; intros p0 acc; [done|].
  cbn [PolygonRef.translate map PolygonRef.polygonLength_loop].
  rewrite psub_padd. apply IH.
Qed.

(** X10. The length of a loop does not change when the loop is translated,
    also when translated coordinates wrap around; on the empty loop both
    calls fail alike. *)
Theorem X10_polygonLength_translate (vSize : Point → Z) (thiss : Path) (translation : Point) :
  PolygonRef.polygonLength vSize (PolygonRef.translate thiss translation) =
    PolygonRef.polygonLength vSize thiss.
Proof.
  unfold PolygonRef.polygonLength, PolygonRef.size, PolygonRef.translate.
  rewrite length_map, lookup_map.
  destruct (thiss !! _) as [p0|]; [|done].
  cbn [option_map mbind option_bind]. f_equal.
  apply polygonLength_loop_translate.
Qed.

Lemma padd_padd (q d1 d2 : Point) :
  IntPoint.padd (IntPoint.padd q d1) d2 = IntPoint.padd q (IntPoint.padd d1 d2).
Proof.
  unfold IntPoint.padd, add64. cbn [X Y].
  rewrite !wrap64_add_idemp_l, !wrap64_add_idemp_r. f_equal; f_equal; lia.
Qed.

(** X11. Two translations compose to the translation by the sum of the two
    vectors; and translating a loop of [int64_t] coordinates by a vector and
    then by its opposite gives the loop back, also when the coordinates in
    between wrap around. *)
Theorem X11_translate_compose_back (thiss : Path) (d1 d2 : Point) :
  PolygonRef.translate (PolygonRef.translate thiss d1) d2 =
    PolygonRef.translate thiss (IntPoint.padd d1 d2) ∧
  ((∀ q, q ∈ thiss → fits 64 (X q) ∧ fits 64 (Y q)) →
   PolygonRef.translate (PolygonRef.translate thiss d1)
                        (IntPoint.psub (mkPoint 0 0) d1) = thiss).
Proof.
  unfold PolygonRef.translate. rewrite !map_map. split.
  - apply map_ext. intros q. apply padd_padd.
  - intros Hfit. rewrite <- (map_id thiss) at 2. apply map_ext_in.
    intros q Hq. apply list_elem_of_In, Hfit in Hq as [HX HY].
    rewrite padd_padd. unfold IntPoint.padd, IntPoint.psub, add64, sub64. cbn [X Y].
    rewrite !wrap64_add_idemp_r. destruct q as [x y]. cbn [X Y] in *.
    f_equal.
    + rewrite <- (wrap64_small x) at 2 by done.
      rewrite Z.add_assoc, wrap64_add_idemp_r. f_equal. lia.
    + rewrite <- (wrap64_small y) at 2 by done.
      rewrite Z.add_assoc, wrap64_add_idemp_r. f_equal. lia.
Qed.

Lemma X11_translate_compose_back_witness :
  PolygonRef.translate
    (PolygonRef.translate square10 (mkPoint (2 ^ 63 - 5) 7))
    (IntPoint.psub (mkPoint 0 0) (mkPoint (2 ^ 63 - 5) 7)) = square10.
Proof.
  apply (proj2 (X11_translate_compose_back square10 (mkPoint (2 ^ 63 - 5) 7) (mkPoint 0 0))).
  intros q Hq. unfold square10 in Hq.
  repeat (apply elem_of_cons in Hq as [->|Hq]; [unfold fits; simpl; lia|]).
  by apply elem_of_nil in Hq.
Defined.

Lemma sub64_shift (a b d : Z) : sub64 (a + d) (b + d) = sub64 a b.
Proof. unfold sub64. f_equal. lia. Qed.

Lemma geb_shift (a b d : Z) : (a + d >=? b + d) = (a >=? b).
Proof. rewrite !Z.geb_leb. destruct (Z.leb_spec b a), (Z.leb_spec (b + d) (a + d)); lia || done. Qed.

Lemma gtb_shift (a b d : Z) : (a + d >? b + d) = (a >? b).
Proof. rewrite !Z.gtb_ltb. destruct (Z.ltb_spec b a), (Z.ltb_spec (b + d) (a + d)); lia || done. Qed.

Lemma leb_shift (a b d : Z) : (a + d <=? b + d) = (a <=? b).
Proof. destruct (Z.leb_spec a b), (Z.leb_spec (a + d) (b + d)); lia || done. Qed.

Lemma ltb_shift (a b d : Z) : (a + d <? b + d) = (a <? b).
Proof. destruct (Z.ltb_spec a b), (Z.ltb_spec (a + d) (b + d)); lia || done. Qed.

Lemma eqb_shift (a b d : Z) : (a + d =? b + d) = (a =? b).
Proof. destruct (Z.eqb_spec a b), (Z.eqb_spec (a + d) (b + d)); lia || done. Qed.


Lemma inside_loop_shift (dx dy : Z) (p : Point) (b : bool) (rest : Path) :
  ∀ p0 c,
    PolygonRef.inside_loop (map (shift_point dx dy) rest) (shift_point dx dy p0)
      (shift_point dx dy p) b c =
    PolygonRef.inside_loop rest p0 p b c.
Proof.
  induction rest as [|p1 rest IH]; intros p0 c; [done|].
  cbn [map PolygonRef.inside_loop].
  assert (HX : ∀ q, X (shift_point dx dy q) = X q + dx) by done.
  assert (HY : ∀ q, Y (shift_point dx dy q) = Y q + dy) by done.
  rewrite !HX, !HY, !Z.add_max_distr_r, !Z.add_min_distr_r.
  rewrite !sub64_shift, !geb_shift, !gtb_shift, !leb_shift, !ltb_shift, !eqb_shift.
  rewrite !IH. reflexivity.
Qed.

Lemma last_map {A B} (f : A → B) (l : list A) :
  list.last (map f l) = option_map f (list.last l).
Proof.
  induction l as [|x l IH]; [done|]. destruct l as [|y l]; [done|].
  exact IH.
Qed.

(** X12. Point-in-polygon classification does not change when the loop and
    the query point are translated by the same vector, as long as no
    translated coordinate wraps around. *)
Theorem X12_inside_translate (thiss : Path) (p translation : Point) (b : bool) :
  (∀ q, q ∈ thiss → fits 64 (X q + X translation) ∧ fits 64 (Y q + Y translation)) →
  fits 64 (X p + X translation) ∧ fits 64 (Y p + Y translation) →
  PolygonRef.inside (PolygonRef.translate thiss translation) (IntPoint.padd p translation) b =
    PolygonRef.inside thiss p b.
Proof.
  intros Hfit [HpX HpY].
  assert (Hp : IntPoint.padd p translation = shift_point (X translation) (Y translation) p).
  { unfold IntPoint.padd, shift_point, add64. by rewrite !wrap64_small. }
  assert (Ht : PolygonRef.translate thiss translation =
               map (shift_point (X translation) (Y translation)) thiss).
  { unfold PolygonRef.translate. apply map_ext_in. intros q Hq.
    apply list_elem_of_In, Hfit in Hq as [HX HY].
    unfold IntPoint.padd, shift_point, add64. by rewrite !wrap64_small. }
  rewrite Hp, Ht. unfold PolygonRef.inside, PolygonRef.size, PolygonRef.back.
  rewrite length_map, last_map.
  destruct (_ <? 1); [done|]. destruct (list.last thiss) as [p0|]; [|done].
  apply inside_loop_shift.
Qed.

Lemma X12_inside_translate_witness :
  PolygonRef.inside (PolygonRef.translate square10 (mkPoint 100 (-7)))
                    (IntPoint.padd (mkPoint 5 5) (mkPoint 100 (-7))) false = true.
Proof.
  rewrite (X12_inside_translate square10 (mkPoint 5 5) (mkPoint 100 (-7)) false).
  - vm_compute. reflexivity.
  - intros q Hq. unfold square10 in Hq.
    repeat (apply elem_of_cons in Hq as [->|Hq]; [unfold fits; simpl; lia|]).
    by apply elem_of_nil in Hq.
  - unfold fits. simpl. lia.
Defined.

(** ** [polygonLength] of a shape *)

Lemma wrap64_idemp (z : Z) : wrap64 (wrap64 z) = wrap64 z.
Proof. pose proof (wrap64_add_idemp_l z 0) as H. by rewrite !Z.add_0_r in H. Qed.

Lemma polygonLength_loop_wrapped vSize (rest : Path) :
  ∀ p0 acc, rest ≠ [] ∨ wrap64 acc = acc →
    wrap64 (PolygonRef.polygonLength_loop vSize rest p0 acc) =
      PolygonRef.polygonLength_loop vSize rest p0 acc.
Proof.
  induction rest as [|p1 rest IH]; intros p0 acc Hw.
  - destruct Hw as [?|Hw]; [done|]. exact Hw.
  - cbn [PolygonRef.polygonLength_loop]. apply IH. right. apply wrap64_idemp.
Qed.

Lemma polygonLength_loop_acc vSize (rest : Path) :
  ∀ p0 acc,
    wrap64 (PolygonRef.polygonLength_loop vSize rest p0 acc) =
      wrap64 (acc + PolygonRef.polygonLength_loop vSize rest p0 0).
Proof.
  induction rest as [|p1 rest IH]; intros p0 acc.
  - simpl. f_equal. lia.
  - cbn [PolygonRef.polygonLength_loop].
    set (v := vSize (IntPoint.psub p0 p1)).
    set (L0 := PolygonRef.polygonLength_loop vSize rest p1 0).
    transitivity (wrap64 (acc + v + L0)).
    + rewrite IH. unfold add64. fold L0. by rewrite wrap64_add_idemp_l.
    + symmetry. rewrite <- wrap64_add_idemp_r, IH, wrap64_add_idemp_r. fold L0.
      unfold add64.
      replace (acc + (wrap64 (0 + v) + L0)) with (wrap64 (0 + v) + (acc + L0)) by lia.
      rewrite wrap64_add_idemp_l. f_equal. lia.
Qed.

Lemma Polygons_polygonLength_loop_sum vSize (rest : Paths) :
  Forall (λ poly : Path, poly ≠ [] ∧ Z.of_nat (length poly) < 2 ^ 64) rest →
  ∀ acc, wrap64 acc = acc →
    ∃ lens,
      Forall2 (λ poly len, PolygonRef.polygonLength vSize poly = Some len) rest lens ∧
      Polygons.polygonLength_loop vSize rest acc = Some (wrap64 (acc + foldr Z.add 0 lens)).
Proof.
  induction 1 as [|poly rest [Hne Hlen] _ IH]; intros acc Hacc.
  - exists []. split; [constructor|]. simpl. by rewrite Z.add_0_r, Hacc.
  - destruct (polygonLength_nonempty vSize poly Hne Hlen) as (p0 & Hlast & Hpoly).
    cbn [Polygons.polygonLength_loop].
    clear Hlast. unfold PolygonRef.polygonLength in Hpoly.
    destruct (poly !! Z.to_nat ((PolygonRef.size poly - 1) mod 2 ^ 64))
      as [p0'|] eqn:Hread; [|discriminate].
    clear p0 Hpoly. cbn [mbind option_bind].
    destruct (IH (PolygonRef.polygonLength_loop vSize poly p0' acc)) as (lens & Hlens & Hrun).
    { apply polygonLength_loop_wrapped. by left. }
    exists (PolygonRef.polygonLength_loop vSize poly p0' 0 :: lens). split.
    + constructor; [|exact Hlens]. unfold PolygonRef.polygonLength. by rewrite Hread.
    + rewrite Hrun. f_equal. cbn [foldr].
      rewrite <- wrap64_add_idemp_l, polygonLength_loop_acc, wrap64_add_idemp_l.
      f_equal. lia.
Qed.

Lemma Polygons_polygonLength_loop_empty vSize (rest : Paths) :
  [] ∈ rest → ∀ acc, Polygons.polygonLength_loop vSize rest acc = None.
Proof.
  induction rest as [|poly rest IH]; intros Hin acc; [by apply elem_of_nil in Hin|].
  cbn [Polygons.polygonLength_loop].
  apply elem_of_cons in Hin as [<-|Hin]; [done|].
  destruct (poly !! _); [|done]. cbn [mbind option_bind]. by apply IH.
Qed.

(** X13. The length of a shape whose loops all have a point is the sum, in
    [int64_t], of the lengths of its loops; on a shape that holds an empty
    loop the call reads out of range and has no value. *)
Theorem X13_Polygons_polygonLength (vSize : Point → Z) (polygons : Paths) :
  (Forall (λ poly : Path, poly ≠ [] ∧ Z.of_nat (length poly) < 2 ^ 64) polygons →
   ∃ lens,
     Forall2 (λ poly len, PolygonRef.polygonLength vSize poly = Some len) polygons lens ∧
     Polygons.polygonLength vSize polygons = Some (wrap64 (foldr Z.add 0 lens))) ∧
  ([] ∈ polygons → Polygons.polygonLength vSize polygons = None).
Proof.
  split.
  - intros Hall.
    destruct (Polygons_polygonLength_loop_sum vSize polygons Hall 0 eq_refl)
      as (lens & Hlens & Hrun).
    exists lens. split; [exact Hlens|]. exact Hrun.
  - intros Hin. by apply Polygons_polygonLength_loop_empty.
Qed.

Lemma X13_Polygons_polygonLength_witness :
  Polygons.polygonLength IntPoint.vSize [square10; square4] = Some 56 ∧
  Polygons.polygonLength IntPoint.vSize [square10; []; square4] = None.
Proof.
  destruct (X13_Polygons_polygonLength IntPoint.vSize [square10; square4]) as [Hsum _].
  destruct (X13_Polygons_polygonLength IntPoint.vSize [square10; []; square4]) as [_ Hnone].
  split.
  - destruct Hsum as (lens & Hlens & Hrun).
    { repeat constructor; done. }
    rewrite Hrun.
    inversion Hlens as [|? l1 ? ls1 H1 Hrest]; subst.
    inversion Hrest as [|? l2 ? ls2 H2 Hnil]; subst. inversion Hnil; subst.
    vm_compute in H1, H2. injection H1 as <-. injection H2 as <-. reflexivity.
  - apply Hnone. right. left.
Defined.

(** ** [removeDegenerateVerts] has a value *)

Lemma removeDegenerateVerts_while_total vSize_wrap vSize (next : Point) (fuel : nat) :
  ∀ result, (length result ≤ S fuel)%nat →
    ∃ result', Polygons.removeDegenerateVerts_while vSize_wrap vSize fuel result next
                 = Some result' ∧
               result' `prefix_of` result ∧ (result ≠ [] → result' ≠ []).
Proof.
  induction fuel as [|fuel IH]; intros result Hlen.
  - cbn [Polygons.removeDegenerateVerts_while].
    destruct (Nat.ltb_spec 1 (length result)); [lia|]. by exists result.
  - cbn [Polygons.removeDegenerateVerts_while].
    destruct (Nat.ltb_spec 1 (length result)) as [Hlt|]; [|by exists result].
    destruct (lookup_lt_is_Some_2 result (length result - 2)) as [before_back ->]; [lia|].
    destruct (list.last result) as [back|] eqn:Hback.
    2:{ apply last_None in Hback. subst. simpl in Hlt. lia. }
    cbn [mbind option_bind].
    destruct (Polygons.isDegenerate _ _ _ _ _); [|by exists result].
    apply last_Some in Hback as [l' ->]. rewrite removelast_last.
    rewrite length_app in Hlen, Hlt. simpl in Hlen, Hlt.
    destruct (IH l') as (result' & Hrun & Hpre & Hne); [lia|].
    exists result'. split; [exact Hrun|]. split.
    + by apply prefix_app_r.
    + intros _. apply Hne. intros ->. simpl in Hlt. lia.
Qed.

Lemma removeDegenerateVerts_for_total vSize_wrap vSize (poly : Path) (n : nat) :
  ∀ idx result, (idx + n = length poly)%nat → result `sublist_of` take idx poly →
    ∃ result', Polygons.removeDegenerateVerts_for vSize_wrap vSize n poly idx result
                 = Some result' ∧
               result' `sublist_of` poly.
Proof.
  induction n as [|n IH]; intros idx result Hidx Hsub.
  - exists result. split; [done|]. etrans; [exact Hsub|]. apply sublist_take.
  - cbn [Polygons.removeDegenerateVerts_for].
    destruct (lookup_lt_is_Some_2 poly idx) as [now Hnow]; [lia|].
    assert (∃ last, (if (length result =? 0)%nat then list.last poly else list.last result)
                    = Some last) as [last ->].
    { destruct (Nat.eqb_spec (length result) 0).
      - destruct (list.last poly) eqn:Hl; [by eexists|].
        apply last_None in Hl. subst. simpl in Hidx. lia.
      - destruct (list.last result) eqn:Hl; [by eexists|].
        apply last_None in Hl. by subst. }
    cbn [mbind option_bind].
    destruct ((S idx =? length poly)%nat && (length result =? 0)%nat) eqn:Hbreak.
    { exists result. split; [done|]. etrans; [exact Hsub|]. apply sublist_take. }
    assert (is_Some (if (S idx =? length poly)%nat then result !! 0%nat else poly !! S idx))
      as [next ->].
    { destruct (Nat.eqb_spec (S idx) (length poly)).
      - destruct (Nat.eqb_spec (length result) 0); [done|]. apply lookup_lt_is_Some_2. lia.
      - apply lookup_lt_is_Some_2. lia. }
    rewrite Hnow. cbn [mbind option_bind].
    destruct (Polygons.isDegenerate _ _ _ _ _).
    + destruct (removeDegenerateVerts_while_total vSize_wrap vSize next (length result) result)
        as (result' & -> & [popped ->] & _); [lia|].
      cbn [mbind option_bind]. apply IH; [lia|].
      rewrite (take_S_r _ _ _ Hnow).
      apply sublist_inserts_r. etrans; [|exact Hsub]. by apply sublist_inserts_r.
    + apply IH; [lia|]. rewrite (take_S_r _ _ _ Hnow). by apply sublist_app.
Qed.

Lemma removeDegenerateVerts_loop_total vSize_wrap vSize (rest : Paths) :
  ∀ ret, ∃ kept,
    Polygons.removeDegenerateVerts_loop vSize_wrap vSize rest ret = Some (ret ++ kept) ∧
    (length kept ≤ length rest)%nat ∧
    Forall (λ result : Path, (2 < length result)%nat ∧
                             ∃ poly, poly ∈ rest ∧ result `sublist_of` poly) kept.
Proof.
  induction rest as [|poly rest IH]; intros ret.
  - exists []. by rewrite app_nil_r.
  - cbn [Polygons.removeDegenerateVerts_loop].
    destruct (removeDegenerateVerts_for_total vSize_wrap vSize poly (length poly) 0 [])
      as (result & -> & Hsub); [done|apply sublist_nil_l|].
    cbn [mbind option_bind].
    destruct (Nat.ltb_spec 2 (length result)) as [Hlen|Hlen].
    + destruct (IH (ret ++ [result])) as (kept & -> & Hk & Hall).
      exists (result :: kept). rewrite <- app_assoc. split; [done|]. split; [simpl; lia|].
      constructor.
      * split; [done|]. exists poly. split; [left|done].
      * eapply List.Forall_impl; [|exact Hall].
        intros r (? & p & ? & ?). split; [done|]. exists p. split; [by right|done].
    + destruct (IH ret) as (kept & -> & Hk & Hall).
      exists kept. split; [done|]. split; [simpl; lia|].
      eapply List.Forall_impl; [|exact Hall].
      intros r (? & p & ? & ?). split; [done|]. exists p. split; [by right|done].
Qed.

(** X14. [removeDegenerateVerts] has a value on every shape: no read is out
    of range and the loop that pops the back of the result ends.  The shape
    returned has at most as many loops as the shape given, every loop of it
    has more than two points, and every loop of it is made of points of a
    loop of the shape given, in their order: the function adds no point and
    moves none. *)
Theorem X14_removeDegenerateVerts_total (vSize_wrap : Z → Z) (vSize : Point → Z)
    (polygons : Paths) :
  ∃ ret,
    Polygons.removeDegenerateVerts vSize_wrap vSize polygons = Some ret ∧
    (length ret ≤ length polygons)%nat ∧
    Forall (λ result : Path, (2 < length result)%nat ∧
                             ∃ poly, poly ∈ polygons ∧ result `sublist_of` poly) ret.
Proof.
  destruct (removeDegenerateVerts_loop_total vSize_wrap vSize polygons [])
    as (kept & Hrun & Hlen & Hall).
  exists kept. done.
Qed.

(** ** [smooth] of a shape *)

Lemma smooth_of_cons sh (p : Point) (rest : Path) (remove_length : Z) :
  PolygonRef.smooth sh (p :: rest) remove_length [] =
    Some (p :: smooth_walk sh remove_length p rest).
Proof.
  unfold PolygonRef.smooth. rewrite decide_True by (simpl; lia).
  cbn [lookup list_lookup mbind option_bind app].
  exact (smooth_loop_walk sh remove_length (length rest) rest (le_n _)
           (length (p :: rest)) [] p [p] (le_S _ _ (le_n _))).
Qed.

Lemma smooth_walk_sublist sh (remove_length : Z) (n : nat) :
  ∀ (rest : Path) (prev : Point), (length rest ≤ n)%nat →
    smooth_walk sh remove_length prev rest `sublist_of` rest ∧
    (length rest ≤ 2 * length (smooth_walk sh remove_length prev rest) + 1)%nat.
Proof.
  induction n as [|n IH]; intros rest prev Hn.
  - destruct rest; [|simpl in Hn; lia]. simpl. split; [done|lia].
  - destruct rest as [|cur rest']; [simpl; split; [done|lia]|].
    simpl in Hn. cbn [smooth_walk].
    destruct (sh (IntPoint.psub prev cur) remove_length).
    + destruct rest' as [|nxt rest'']; [simpl; split; [apply sublist_nil_l|lia]|].
      destruct (IH rest'' nxt) as [Hsub Hlen]; [simpl in Hn; lia|].
      split; [by apply sublist_cons, sublist_skip|simpl; lia].
    + destruct (IH rest' cur) as [Hsub Hlen]; [lia|].
      split; [by apply sublist_skip|simpl; lia].
Qed.

Lemma Polygons_smooth_loop_spec area sh (remove_length min_area : Z) (rest : Paths) :
  ∀ ret, ∃ smoothed,
    Polygons.smooth_loop area sh rest remove_length min_area ret = Some (ret ++ smoothed) ∧
    Forall2 (λ poly result : Path,
               result `sublist_of` poly ∧ head result = head poly ∧
               (length poly ≤ 2 * length result)%nat ∧
               ((length poly ≤ 5)%nat → result = poly)) rest smoothed.
Proof.
  induction rest as [|poly rest IH]; intros ret.
  - exists []. by rewrite app_nil_r.
  - cbn [Polygons.smooth_loop]. unfold PolygonRef.size.
    destruct (PrimFloat.ltb _ _ || (Z.of_nat (length poly) <=? 5)) eqn:Hcopy.
    { destruct (IH (ret ++ [poly])) as (smoothed & -> & Hall).
      exists (poly :: smoothed). rewrite <- app_assoc. split; [done|].
      constructor; [|exact Hall]. repeat split; [done|lia]. }
    apply orb_false_iff in Hcopy as [_ Hsize]. apply Z.leb_gt in Hsize.
    destruct (Z.eqb_spec (Z.of_nat (length poly)) 0); [lia|].
    destruct (Z.ltb_spec (Z.of_nat (length poly)) 4); [lia|].
    destruct poly as [|p poly']; [simpl in Hsize; lia|].
    rewrite smooth_of_cons. cbn [mbind option_bind].
    destruct (IH (ret ++ [p :: smooth_walk sh remove_length p poly']))
      as (smoothed & -> & Hall).
    exists ((p :: smooth_walk sh remove_length p poly') :: smoothed).
    rewrite <- app_assoc. split; [done|].
    constructor; [|exact Hall].
    destruct (smooth_walk_sublist sh remove_length (length poly') poly' p (le_n _))
      as [Hsub Hlen].
    repeat split; [by apply sublist_skip|simpl; lia|simpl in *; lia].
Qed.

(** X15. [Polygons::smooth] has a value on every shape and gives one loop
    for each loop of the shape, in the same order: the tests [size() == 0]
    and [size() < 4] are never reached with a loop they hold for.  Each loop
    of the result is made of points of its loop, in their order, starts with
    the same point, and keeps at least half of the points; a loop of at most
    5 points is copied. *)
Theorem X15_Polygons_smooth (area : Path → float) (shorterThen : Point → Z → bool)
    (polygons : Paths) (remove_length min_area : Z) :
  ∃ ret,
    Polygons.smooth area shorterThen polygons remove_length min_area = Some ret ∧
    Forall2 (λ poly result : Path,
               result `sublist_of` poly ∧ head result = head poly ∧
               (length poly ≤ 2 * length result)%nat ∧
               ((length poly ≤ 5)%nat → result = poly)) polygons ret.
Proof.
  destruct (Polygons_smooth_loop_spec area shorterThen remove_length min_area polygons [])
    as (smoothed & Hrun & Hall).
  by exists smoothed.
Qed.

(** ** [simplify] of a shape *)

Lemma drop_1_insert_0 (l : Path) (x : Point) : drop 1 (<[0%nat := x]> l) = drop 1 l.
Proof. by destruct l. Qed.

Lemma simplify_loop_frame vSizeMM (allowed : Z) (orig : Path) (n : nat) :
  ∀ thiss poly_idx poly thiss' poly',
    PolygonRef.simplify_loop vSizeMM n thiss allowed poly_idx poly = Some (thiss', poly') →
    Forall (.∈ orig) thiss → Forall (.∈ orig) poly →
    drop 1 thiss' = drop 1 thiss ∧ Forall (.∈ orig) thiss' ∧ Forall (.∈ orig) poly'.
Proof.
  induction n as [|n IH]; intros thiss poly_idx poly thiss' poly' Hrun Hthiss Hpoly.
  - injection Hrun as <- <-. done.
  - cbn [PolygonRef.simplify_loop] in Hrun.
    destruct (thiss !! poly_idx) as [cur|] eqn:Hcur; [|discriminate].
    destruct (thiss !! 0%nat) as [last|]; [|discriminate].
    cbn [mbind option_bind] in Hrun.
    destruct (_ <? allowed); [by apply IH in Hrun|].
    destruct (thiss !! (S poly_idx mod length thiss)%nat) as [next|]; [|discriminate].
    cbn [mbind option_bind] in Hrun.
    destruct (PolygonRef.simplify_divisor _ _ _ _) as [divisor|]; [|discriminate].
    cbn [mbind option_bind] in Hrun.
    destruct (divisor =? 0); [discriminate|].
    destruct (_ <? allowed); [by apply IH in Hrun|].
    assert (cur ∈ orig) as Hin.
    { exact (Forall_lookup_1 _ _ _ _ Hthiss Hcur). }
    apply IH in Hrun as (Hdrop & Ht & Hp).
    + by rewrite drop_1_insert_0 in Hdrop.
    + by apply Forall_insert.
    + apply Forall_app. split; [done|]. by constructor.
Qed.

Lemma Forall_elem_of_self (l : Path) : Forall (.∈ l) l.
Proof. apply Forall_lookup_2. intros i x. apply list_elem_of_lookup_2. Qed.

Lemma PolygonRef_simplify_frame vSizeMM (thiss : Path) (allowed : Z) (thiss' result : Path) :
  PolygonRef.simplify vSizeMM thiss allowed [] = Some (thiss', result) →
  (length thiss' = length thiss ∧ drop 1 thiss' = drop 1 thiss ∧ Forall (.∈ thiss) thiss') ∧
  (((3 ≤ length thiss)%nat → (3 ≤ length result)%nat) ∧
   ((length thiss < 4)%nat → result = thiss) ∧ Forall (.∈ thiss) result).
Proof.
  intros Hrun. pose proof (simplify_at_least_3 vSizeMM thiss allowed thiss' result Hrun) as H3.
  unfold PolygonRef.simplify, PolygonRef.size in Hrun.
  destruct (Z.ltb_spec (Z.of_nat (length thiss)) 4) as [Hlt|Hge].
  - injection Hrun as <- <-. pose proof (Forall_elem_of_self thiss). done.
  - destruct (thiss !! 0%nat) as [last|] eqn:Hlast; [|discriminate].
    cbn [mbind option_bind] in Hrun.
    destruct (PolygonRef.simplify_loop _ _ _ _ _ _) as [[t q]|] eqn:Hloop; [|discriminate].
    cbn [mbind option_bind fst snd] in Hrun.
    pose proof (simplify_loop_length _ _ _ _ _ _ _ _ Hloop) as [Hlen _].
    apply (simplify_loop_frame _ _ thiss) in Hloop as (Hdrop & Ht & Hq).
    2:{ apply Forall_elem_of_self. }
    2:{ constructor; [|done]. by apply list_elem_of_lookup_2 in Hlast. }
    destruct (Nat.ltb_spec (length q) 3); injection Hrun as <- <-;
      (repeat split; [done|done|done|done|lia|done]).
Qed.

Lemma Polygons_simplify_loop_frame vSizeMM (allowed : Z) (rest : Paths) :
  ∀ thiss' ret,
    Polygons.simplify_loop vSizeMM rest allowed = Some (thiss', ret) →
    Forall2 (λ poly poly' : Path,
               length poly' = length poly ∧ drop 1 poly' = drop 1 poly ∧
               Forall (.∈ poly) poly') rest thiss' ∧
    Forall2 (λ poly result : Path,
               ((3 ≤ length poly)%nat → (3 ≤ length result)%nat) ∧
               ((length poly < 4)%nat → result = poly) ∧
               Forall (.∈ poly) result) rest ret.
Proof.
  induction rest as [|poly rest IH]; intros thiss' ret Hrun.
  - injection Hrun as <- <-. split; constructor.
  - cbn [Polygons.simplify_loop] in Hrun.
    destruct (PolygonRef.simplify _ _ _ _) as [[t r]|] eqn:Hpoly; [|discriminate].
    cbn [mbind option_bind] in Hrun.
    destruct (Polygons.simplify_loop _ _ _) as [[ts rs]|]; [|discriminate].
    cbn [mbind option_bind fst snd] in Hrun. injection Hrun as <- <-.
    destruct (IH ts rs eq_refl) as [Hts Hrs].
    apply PolygonRef_simplify_frame in Hpoly as [Ht Hr].
    split; by constructor.
Qed.

(** X16. A call of [Polygons::simplify] that returns has written to the
    shape it is called on: each of its loops keeps its length and all its
    points but the first, which may have been overwritten by another point
    of the loop.  The shape returned has one loop for each loop of the
    shape, made of points of that loop; a loop of fewer than four points is
    copied, and a loop of at least three points gives at least three. *)
Theorem X16_Polygons_simplify (vSizeMM : Point → float) (polygons : Paths)
    (allowed_error_distance : Z) (thiss' ret : Paths) :
  Polygons.simplify vSizeMM polygons allowed_error_distance = Some (thiss', ret) →
  Forall2 (λ poly poly' : Path,
             length poly' = length poly ∧ drop 1 poly' = drop 1 poly ∧
             Forall (.∈ poly) poly') polygons thiss' ∧
  Forall2 (λ poly result : Path,
             ((3 ≤ length poly)%nat → (3 ≤ length result)%nat) ∧
             ((length poly < 4)%nat → result = poly) ∧
             Forall (.∈ poly) result) polygons ret.
Proof. apply Polygons_simplify_loop_frame. Qed.

Lemma X16_Polygons_simplify_witness :
  Polygons.simplify IntPoint.vSizeMM [rect 105 105; [mkPoint 0 0; mkPoint 7 0]] 100 =
    Some ([[mkPoint 0 105; mkPoint 105 0; mkPoint 105 105; mkPoint 0 105];
           [mkPoint 0 0; mkPoint 7 0]],
          [[mkPoint 0 105; mkPoint 105 0; mkPoint 105 105; mkPoint 0 105];
           [mkPoint 0 0; mkPoint 7 0]]) ∧
  Forall2 (λ poly poly' : Path,
             length poly' = length poly ∧ drop 1 poly' = drop 1 poly ∧
             Forall (.∈ poly) poly')
    [rect 105 105; [mkPoint 0 0; mkPoint 7 0]]
    [[mkPoint 0 105; mkPoint 105 0; mkPoint 105 105; mkPoint 0 105];
     [mkPoint 0 0; mkPoint 7 0]].
Proof.
  assert (Polygons.simplify IntPoint.vSizeMM [rect 105 105; [mkPoint 0 0; mkPoint 7 0]] 100 =
    Some ([[mkPoint 0 105; mkPoint 105 0; mkPoint 105 105; mkPoint 0 105];
           [mkPoint 0 0; mkPoint 7 0]],
          [[mkPoint 0 105; mkPoint 105 0; mkPoint 105 105; mkPoint 0 105];
           [mkPoint 0 0; mkPoint 7 0]])) as Hrun by (vm_compute; reflexivity).
  split; [exact Hrun|].
  exact (proj1 (X16_Polygons_simplify _ _ _ _ _ Hrun)).
Defined.

(** ** [remove] and the loops without a point *)

Lemma List_filter_sublist {A} (f : A → bool) (l : list A) : List.filter f l `sublist_of` l.
Proof.
  induction l as [|x l IH]; [done|]. simpl.
  destruct (f x); [by apply sublist_skip|by apply sublist_cons].
Qed.

(** X17. [Polygons::remove] has a value for all arguments and leaves the
    shape it is called on as it is.  The shape returned is made of loops of
    that shape, in their order, and holds every empty loop of it: the loops
    without a point are not removed.  With nothing to remove the shape
    returned is the shape itself. *)
Theorem X17_remove_keeps_empty_loops (polygons to_be_removed : Paths) (same_distance : Z) :
  (∃ result,
     Polygons.remove polygons to_be_removed same_distance = Some (polygons, result) ∧
     result `sublist_of` polygons ∧
     List.filter (λ poly, negb (nonempty poly)) result =
       List.filter (λ poly, negb (nonempty poly)) polygons) ∧
  Polygons.remove polygons [] same_distance = Some (polygons, polygons).
Proof.
  unfold Polygons.remove. rewrite !remove_loop_spec. cbn [mbind option_bind app].
  split.
  - eexists. split; [reflexivity|]. split; [apply List_filter_sublist|].
    rewrite filter_filter_comm. apply List.filter_ext. intros poly.
    by destruct (nonempty poly).
  - do 2 f_equal. transitivity (List.filter (λ _, true) polygons).
    + apply List.filter_ext. intros poly. cbn [existsb]. by rewrite andb_false_r.
    + induction polygons as [|poly polygons IH]; [done|]. simpl. by rewrite IH.
Qed.
